(** * ucd-tool: the table generator of seshat-unicode

    A shallow embedding of [tools/ucd-tool/ucd-tool.py] and of the parts of
    [ucd.collections] it drives, with the properties the specification
    states about them.

    Conventions of the embedding:
    - a Python [int] is a [Z];
    - a Python [str] read from a JSON file is a [string]; a [str] built with
      [chr] (arbitrary code points) is a [list Z] of code points;
    - a Python [dict] is an association list in insertion order, which is the
      order [items()], [keys()] and [values()] iterate in;
    - a value that is either a [str] or [None] is an [option string];
    - a call that may raise returns a [result]. *)

From Stdlib Require Import ZArith List String Ascii Bool Lia.
From Stdlib Require Import Sorted Permutation.
Import ListNotations.

Open Scope Z_scope.

(** ** Python run-time model *)

Module Py.

Inductive exn : Type :=
| KeyError
| ValueError
| AttributeError
| IndexError
| InvalidMappingError
| DomainOverflowError.

Inductive result (A : Type) : Type :=
| Ok (a : A)
| Raise (e : exn).

Arguments Ok {A} a.
Arguments Raise {A} e.

Definition bind {A B : Type} (m : result A) (k : A -> result B) : result B :=
  match m with
  | Ok a => k a
  | Raise e => Raise e
  end.

(** [for x in xs: acc = body(acc, x)], stopping at the first exception. *)
Fixpoint for_each {A S : Type} (body : S -> A -> result S) (xs : list A)
    (acc : S) : result S :=
  match xs with
  | [] => Ok acc
  | x :: xs' => bind (body acc x) (for_each body xs')
  end.

(** A [str] or [None]. *)
Definition optstr : Type := option string.

Definition optstr_eqb (a b : optstr) : bool :=
  match a, b with
  | None, None => true
  | Some x, Some y => String.eqb x y
  | _, _ => false
  end.

(** Keys of a dict: a type with a boolean equality. *)
Class Key (K : Type) : Type := {
  key_eqb : K -> K -> bool;
  key_eqb_eq : forall a b, key_eqb a b = true <-> a = b
}.

#[export] Instance Key_string : Key string :=
  {| key_eqb := String.eqb; key_eqb_eq := String.eqb_eq |}.

#[export] Instance Key_Z : Key Z :=
  {| key_eqb := Z.eqb; key_eqb_eq := Z.eqb_eq |}.

(** A dict, in insertion order. *)
Definition dict (K V : Type) : Type := list (K * V).

(** [d[k]] *)
Fixpoint getitem {K V : Type} `{Key K} (d : dict K V) (k : K) : result V :=
  match d with
  | [] => Raise KeyError
  | (k', v) :: d' => if key_eqb k' k then Ok v else getitem d' k
  end.

(** [d[k] = v]: an existing key keeps its position, a new key goes last. *)
Fixpoint setitem {K V : Type} `{Key K} (d : dict K V) (k : K) (v : V)
    : dict K V :=
  match d with
  | [] => [(k, v)]
  | (k', v') :: d' =>
      if key_eqb k' k then (k', v) :: d' else (k', v') :: setitem d' k v
  end.

Definition keys {K V : Type} (d : dict K V) : list K := map fst d.
Definition values {K V : Type} (d : dict K V) : list V := map snd d.

(** *** Strings *)

Definition space : ascii := " "%char.
Definition newline : ascii := "010"%char.

(** [s.startswith(c)] for a one-character prefix. *)
Definition startswith_char (s : string) (c : ascii) : bool :=
  match s with
  | String c' _ => Ascii.eqb c' c
  | EmptyString => false
  end.

(** [s.split(sep)] for a one-character separator: every occurrence of the
    separator cuts, so adjacent separators give empty pieces and the result
    is never empty. *)
Fixpoint split_char (sep : ascii) (s : string) : list string :=
  match s with
  | EmptyString => [EmptyString]
  | String c s' =>
      if Ascii.eqb c sep then EmptyString :: split_char sep s'
      else match split_char sep s' with
           | [] => [String c EmptyString]
           | w :: ws => String c w :: ws
           end
  end.

(** [s.lower()] on ASCII letters. *)
Definition lower_char (c : ascii) : ascii :=
  let n := nat_of_ascii c in
  if (Nat.leb 65 n && Nat.leb n 90)%bool then ascii_of_nat (n + 32) else c.

Fixpoint lower (s : string) : string :=
  match s with
  | EmptyString => EmptyString
  | String c s' => String (lower_char c) (lower s')
  end.

(** [''.join(pieces)] *)
Definition join (pieces : list string) : string :=
  fold_right String.append EmptyString pieces.

(** *** Hexadecimal *)

Definition hex_digit (c : ascii) : option Z :=
  let n := Z.of_nat (nat_of_ascii c) in
  if (48 <=? n) && (n <=? 57) then Some (n - 48)
  else if (65 <=? n) && (n <=? 70) then Some (n - 55)
  else if (97 <=? n) && (n <=? 102) then Some (n - 87)
  else None.

Fixpoint hex_acc (s : string) (acc : Z) : option Z :=
  match s with
  | EmptyString => Some acc
  | String c s' =>
      match hex_digit c with
      | Some d => hex_acc s' (16 * acc + d)
      | None => None
      end
  end.

(** [int(s, 16)] on a non-empty run of hexadecimal digits, the only form the
    data files hold.  Anything else is a [ValueError] here (a sign, a [0x]
    prefix, underscores and surrounding blanks, which Python also reads, are
    outside the model). *)
Definition int16 (s : string) : result Z :=
  match s with
  | EmptyString => Raise ValueError
  | _ => match hex_acc s 0 with
         | Some n => Ok n
         | None => Raise ValueError
         end
  end.

(** [chr(n)] *)
Definition chr (n : Z) : result Z :=
  if (0 <=? n) && (n <=? 1114111) then Ok n else Raise ValueError.

Definition hex_char (d : Z) : ascii :=
  if d <? 10 then ascii_of_nat (Z.to_nat (48 + d))
  else ascii_of_nat (Z.to_nat (55 + d)).

Fixpoint hex_upper_fuel (fuel : nat) (n : Z) (acc : string) : string :=
  match fuel with
  | O => acc
  | S fuel' =>
      let acc' := String (hex_char (n mod 16)) acc in
      if n / 16 =? 0 then acc' else hex_upper_fuel fuel' (n / 16) acc'
  end.

(** ['{:X}'.format(n)] for [0 <= n]. *)
Definition hex_upper (n : Z) : string :=
  hex_upper_fuel (S (Z.to_nat (Z.log2 n))) n EmptyString.

Fixpoint zeros (k : nat) : string :=
  match k with
  | O => EmptyString
  | S k' => String "0"%char (zeros k')
  end.

(** ['{:04X}'.format(n)] for [0 <= n]. *)
Definition hex04 (n : Z) : string :=
  let h := hex_upper n in
  String.append (zeros (4 - String.length h)) h.

(** *** Ordering and sorting *)

(** [a < b] on two [str] given by their code points. *)
Fixpoint str_ltb (a b : list Z) : bool :=
  match a, b with
  | _, [] => false
  | [], _ :: _ => true
  | x :: a', y :: b' =>
      if x <? y then true else if y <? x then false else str_ltb a' b'
  end.

Section Sorted.
Context {A K : Type}.
Variable key : A -> K.
Variable ltb : K -> K -> bool.

(** [x] is put in front of the first element whose key is not below its
    own, so elements with equal keys keep their order. *)
Fixpoint insert (x : A) (l : list A) : list A :=
  match l with
  | [] => [x]
  | y :: l' => if ltb (key y) (key x) then y :: insert x l' else x :: l
  end.

(** [sorted(l, key=key)]: the stable sort of [l] by [key] under [<]. *)
Definition sorted (l : list A) : list A := fold_right insert [] l.

(** [min(l, key=key)]: the first element whose key is minimal. *)
Fixpoint min_from (best : A) (l : list A) : A :=
  match l with
  | [] => best
  | x :: l' => min_from (if ltb (key x) (key best) then x else best) l'
  end.

Definition min (l : list A) : result A :=
  match l with
  | [] => Raise ValueError
  | x :: l' => Ok (min_from x l')
  end.
End Sorted.

End Py.

Import Py.

Notation "x <- m ;; k" := (bind m (fun x => k))
  (at level 61, m at next level, right associativity).

(** ** [ucd.collections.CodePointRange] *)

(** Modelled from the spec: the class [CodePointRange] lives in
    [ucd/collections.py], which is not part of the sources at hand.  The
    specification describes it as an inclusive interval [start, end] of code
    points, ordered by [start]; [ucd-tool.py] uses [parse] on ['AC00..D7A3']
    and on single code points, the fields [start] and [end], [cp in rng] and
    [<] (through [sorted]). *)
Record CodePointRange : Type := mkRange { start : Z; end_ : Z }.

(** Modelled from the spec: [cp in rng] for the inclusive interval. *)
Definition contains (rng : CodePointRange) (cp : Z) : bool :=
  (start rng <=? cp) && (cp <=? end_ rng).

(** Modelled from the spec: ranges are ordered by [start]. *)
Definition range_ltb (a b : CodePointRange) : bool := start a <? start b.

(** [s.split('..')] *)
Fixpoint split_dotdot (s : string) : list string :=
  match s with
  | EmptyString => [EmptyString]
  | String "."%char (String "."%char s') => EmptyString :: split_dotdot s'
  | String c s' =>
      match split_dotdot s' with
      | [] => [String c EmptyString]
      | w :: ws => String c w :: ws
      end
  end.

(** Modelled from the spec: [CodePointRange.parse] reads ['XXXX..YYYY'] or a
    single ['XXXX'] (hexadecimal); anything else raises. *)
Definition parse (s : string) : result CodePointRange :=
  match split_dotdot s with
  | [a] => n <- int16 a ;; Ok (mkRange n n)
  | [a; b] => n <- int16 a ;; m <- int16 b ;; Ok (mkRange n m)
  | _ => Raise ValueError
  end.

(** ** Alias resolution *)

(** [property_info]: [repr_size] is always there, [alias_key] only for some
    properties (an absent key is [None] here, and reading it a [KeyError]). *)
Record prop_info : Type := mkInfo { repr_size : Z; alias_key : option string }.

Definition property_info : dict string prop_info :=
  [ ("bc",   mkInfo 1 (Some "bc"));
    ("gc",   mkInfo 1 (Some "gc"));
    ("hst",  mkInfo 1 (Some "hst"));
    ("gcb",  mkInfo 1 (Some "GCB"));
    ("ccc",  mkInfo 1 (Some "ccc"));
    ("dt",   mkInfo 1 None);
    ("blk",  mkInfo 2 None);
    ("sc",   mkInfo 1 None);
    ("age",  mkInfo 1 None);
    ("wb",   mkInfo 1 None);
    ("insc", mkInfo 1 (Some "InSC")) ]%string.

(** [find_key_by_value]: the first key whose value is [val]; the loop falls
    off its end when there is none, and the function returns [None]. *)
Fixpoint find_key_by_value (d : dict string string) (val : string) : optstr :=
  match d with
  | [] => None
  | (k, v) :: d' => if String.eqb v val then Some k else find_key_by_value d' val
  end.

(** [to_snake_case]; on [None] the call [val.lower()] raises. *)
Definition to_snake_case (val : optstr) : result string :=
  match val with
  | Some s => if String.eqb s "ExtPict" then Ok "ext_pict"%string else Ok (lower s)
  | None => Raise AttributeError
  end.

(** A (range, value) list: the values are [str], or [None] once
    [find_key_by_value] has produced them. *)
Definition range_data : Type := list (CodePointRange * optstr).

(** [data_value_as_abbr], with the loaded [PropertyValueAliases.json] as an
    argument. *)
Definition data_value_as_abbr
    (property_value_aliases : dict string (dict string string))
    (data : list (CodePointRange * string)) (prop : string)
    : result range_data :=
  aliases <- getitem property_value_aliases prop ;;
  Ok (fold_left
        (fun new_data pair =>
           new_data ++ [(fst pair, find_key_by_value aliases (snd pair))])
        data []).

(** [data_value_as_abbr_ccc]: here the table is indexed by the token, and
    indexing raises on a token it does not hold. *)
Definition data_value_as_abbr_ccc
    (property_value_aliases : dict string (dict string string))
    (data : list (CodePointRange * string))
    : result (list (CodePointRange * string)) :=
  aliases <- getitem property_value_aliases "ccc"%string ;;
  for_each
    (fun new_data pair =>
       abbr <- getitem aliases (snd pair) ;;
       Ok (new_data ++ [(fst pair, abbr)]))
    data [].

(** Modelled from the spec: the class [Missing] of [ucd/collections.py] (not
    part of the sources at hand) is the Patch Set, an ordered sequence of
    (range, value) overrides; [append] adds one at the end. *)
Definition Missing : Type := list (CodePointRange * optstr).

Definition Missing_append (m : Missing) (r : CodePointRange) (v : optstr)
    : Missing :=
  m ++ [(r, v)].

(** [patch_data], with the loaded [PropertyValueAliases.json] and the loaded
    patch file [d] as arguments. *)
Definition patch_data
    (property_value_aliases : dict string (dict string string))
    (d : dict string string) (prop : string) : result Missing :=
  info <- getitem property_info prop ;;
  alias_key <- match alias_key info with
               | Some a => Ok a
               | None => Raise KeyError
               end ;;
  for_each
    (fun missing kv =>
       aliases <- getitem property_value_aliases alias_key ;;
       let alias := find_key_by_value aliases (snd kv) in
       cp_range <- parse (fst kv) ;;
       Ok (Missing_append missing cp_range alias))
    d [].

(** ** Ingestion *)

(** [make_data], with the loaded JSON object [d] as its argument. *)
Definition make_data (d : dict string string)
    : result (list (CodePointRange * string)) :=
  data <- for_each
            (fun data kv =>
               cp_range <- parse (fst kv) ;;
               Ok (data ++ [(cp_range, snd kv)]))
            d [] ;;
  Ok (sorted fst range_ltb data).

(** [make_grouped_data], with the loaded JSON object [d] as its argument:
    every listed range gets the value ["true"]. *)
Definition make_grouped_data (d : dict string (list string))
    : result (dict string (list (CodePointRange * string))) :=
  for_each
    (fun data_dict pr =>
       let data_dict := setitem data_dict (fst pr) [] in
       lst <- for_each
                (fun lst rng =>
                   rng <- parse rng ;;
                   Ok (lst ++ [(rng, "true"%string)]))
                (snd pr) [] ;;
       Ok (setitem data_dict (fst pr) (sorted fst range_ltb lst)))
    d [].

(** ** The block-size selector *)

(** The interface of [ucd.collections.TwoStageTable] that [ucd-tool.py]
    uses to select a table: the builder [make] and the cost [table_bytes]. *)
Class TwoStageTableOps (T : Type) : Type := {
  tst_make : string -> range_data -> Z -> optstr -> option Missing -> T;
  table_bytes : T -> Z -> Z
}.

(** The candidate block sizes, in the order the selector tries them. *)
Definition candidate_sizes : list Z := [64; 128; 256; 512].

Section Selector.
Context {T : Type} `{TwoStageTableOps T}.
Variable prop : string.
Variable data : range_data.
Variable repr_size_ : Z.
Variable default_prop : optstr.
Variable missing : option Missing.

(** [tables = {64: None, 128: None, 256: None, 512: None}] *)
Definition empty_tables : dict Z (option T) :=
  [(64, None); (128, None); (256, None); (512, None)].

(** The loop of [select_minimal_tst]: one call of the builder per key, in
    the order of the keys, stored under that key.  (The [print] calls are
    left out.) *)
Definition build_tables : dict Z (option T) :=
  fold_left
    (fun tables block_size =>
       let tst := tst_make prop data block_size default_prop missing in
       setitem tables block_size (Some tst))
    (keys empty_tables) empty_tables.

(** [x.table_bytes(repr_size)] raises on [None]. *)
Fixpoint all_tables (vs : list (option T)) : result (list T) :=
  match vs with
  | [] => Ok []
  | None :: _ => Raise AttributeError
  | Some t :: vs' => ts <- all_tables vs' ;; Ok (t :: ts)
  end.

Definition select_minimal_tst : result T :=
  ts <- all_tables (values build_tables) ;;
  min (fun x => table_bytes x repr_size_) Z.ltb ts.

End Selector.

(** A table interface on which two block sizes tie: the table is its block
    size, and 128 and 256 share the least cost. *)
Definition tie_ops : TwoStageTableOps Z := {|
  tst_make := fun _ _ bs _ _ => bs;
  table_bytes := fun t _ => if (t =? 128) || (t =? 256) then 10 else 20
|}.

(** ** [ucd.collections.TwoStageTable] *)

Module TST.

Section Builder.
Context {Value : Type}.
Variable value_eqb : Value -> Value -> bool.

(** The number of code points: [0x110000] in the tool; a parameter here so
    that the small scenarios of the specification can be run. *)
Variable domain_size : Z.

(** Modelled from the spec: the class [TwoStageTable] of
    [ucd/collections.py] is not part of the sources at hand.  A Two-Stage
    Table is the pair (Stage-1, Stage-2) with the block size and the Default
    Value it was built with; Stage-1 holds one slot id per block, Stage-2 the
    distinct Block Contents. *)
Record TwoStageTable : Type := mkTable {
  stage1 : list nat;
  stage2 : list (list Value);
  block_size : Z;
  default_value : Value
}.

(** Modelled from the spec: the value a list of (range, value) pairs gives
    to [cp], read off the first range that covers it. *)
Fixpoint range_value (m : list (CodePointRange * Value)) (cp : Z)
    : option Value :=
  match m with
  | [] => None
  | (r, v) :: m' => if contains r cp then Some v else range_value m' cp
  end.

(** Modelled from the spec: the Patch Set is merged on top of the Range
    Mapping (the patch wins), and a code point that neither covers resolves
    to the Default Value. *)
Definition patched_value (data patch : list (CodePointRange * Value))
    (default : Value) (cp : Z) : Value :=
  match range_value patch cp with
  | Some v => v
  | None => match range_value data cp with
            | Some v => v
            | None => default
            end
  end.

(** Modelled from the spec: the domain is cut into
    ceil(domain size / block size) blocks. *)
Definition block_count (bs : Z) : Z := (domain_size + bs - 1) / bs.

(** Modelled from the spec: the Block Content of block [b], the tail of the
    last block padded with the Default Value. *)
Definition block_content (data patch : list (CodePointRange * Value))
    (default : Value) (bs : Z) (b : Z) : list Value :=
  map (fun i =>
         let cp := b * bs + Z.of_nat i in
         if cp <? domain_size then patched_value data patch default cp
         else default)
      (seq 0 (Z.to_nat bs)).

Fixpoint block_eqb (a b : list Value) : bool :=
  match a, b with
  | [], [] => true
  | x :: a', y :: b' => value_eqb x y && block_eqb a' b'
  | _, _ => false
  end.

(** The slot of the first block of [s2] equal to [c]. *)
Fixpoint slot_of (c : list Value) (s2 : list (list Value)) : option nat :=
  match s2 with
  | [] => None
  | c' :: s2' =>
      if block_eqb c' c then Some O
      else match slot_of c s2' with
           | Some j => Some (S j)
           | None => None
           end
  end.

(** Modelled from the spec: Block Contents are deduplicated into Stage-2 in
    first-seen order, and Stage-1 receives the slot id of each block. *)
Definition add_block (st : list nat * list (list Value)) (c : list Value)
    : list nat * list (list Value) :=
  match slot_of c (snd st) with
  | Some j => (fst st ++ [j], snd st)
  | None => (fst st ++ [List.length (snd st)], snd st ++ [c])
  end.

Definition block_indices (bs : Z) : list Z :=
  map Z.of_nat (seq 0 (Z.to_nat (block_count bs))).

(** Modelled from the spec: the table the builder makes of inputs it has
    accepted: the blocks in domain order, deduplicated. *)
Definition construct (data : list (CodePointRange * Value)) (bs : Z)
    (default : Value) (patch : list (CodePointRange * Value))
    : TwoStageTable :=
  let st := fold_left add_block
              (map (block_content data patch default bs) (block_indices bs))
              ([], []) in
  mkTable (fst st) (snd st) bs default.

(** Modelled from the spec: the invariant of a Range Mapping, as the
    builder can check it: every range has [start <= end] and ends before
    the next one starts. *)
Fixpoint well_ordered (m : list (CodePointRange * Value)) : bool :=
  match m with
  | [] => true
  | (r, _) :: m' =>
      (start r <=? end_ r)
      && match m' with
         | [] => true
         | (r', _) :: _ => end_ r <? start r'
         end
      && well_ordered m'
  end.

(** Modelled from the spec: both ends of the range are code points of the
    domain. *)
Definition in_domain (r : CodePointRange) : bool :=
  (0 <=? start r) && (start r <? domain_size)
  && (0 <=? end_ r) && (end_ r <? domain_size).

(** Modelled from the spec: [build(mapping, block_size, default_value,
    patch)].  It fails with [InvalidMappingError] when the ranges of the
    mapping overlap or are unsorted, and with [DomainOverflowError] when a
    supplied range, of the mapping or of the patch, exceeds the domain.
    (The specification lets the builder miss some of the violations; the
    model detects all of them.  No order is asked of the Patch Set.) *)
Definition make (data : list (CodePointRange * Value)) (bs : Z)
    (default : Value) (patch : list (CodePointRange * Value))
    : result TwoStageTable :=
  if negb (well_ordered data) then Raise InvalidMappingError
  else if negb (forallb (fun p => in_domain (fst p)) (data ++ patch))
       then Raise DomainOverflowError
  else Ok (construct data bs default patch).

(** Modelled from the spec:
    [value(cp) = Stage-2[Stage-1[cp div block_size]][cp mod block_size]],
    for [0 <= cp]; an index out of range raises. *)
Definition lookup (t : TwoStageTable) (cp : Z) : result Value :=
  match nth_error (stage1 t) (Z.to_nat (cp / block_size t)) with
  | None => Raise IndexError
  | Some slot =>
      match nth_error (stage2 t) slot with
      | None => Raise IndexError
      | Some blk =>
          match nth_error blk (Z.to_nat (cp mod block_size t)) with
          | None => Raise IndexError
          | Some v => Ok v
          end
      end
  end.

End Builder.

Arguments TwoStageTable : clear implicits.

End TST.

(** The code point domain of the tool. *)
Definition DOMAIN_SIZE : Z := 0x110000.

(** The optional Patch Set: [missing=None] is no override at all. *)
Definition patch_of (missing : option Missing) : Missing :=
  match missing with
  | Some m => m
  | None => []
  end.

(** *** The scenarios of the specification, on the domain [0, 15] *)

Definition scenario_mapping : list (CodePointRange * string) :=
  [(mkRange 0 2, "A"); (mkRange 5 5, "B")]%string.

Definition scenario_table (patch : list (CodePointRange * string))
    : result (TST.TwoStageTable string) :=
  TST.make String.eqb 16 scenario_mapping 4 "Z"%string patch.

(** ** Flat tables *)

Definition dquote : string := String "034"%char EmptyString.
Definition nl : string := String newline EmptyString.

(** [derived_na_ranges], as [CodePointRange.parse] reads its literals. *)
Definition derived_na_ranges : list CodePointRange :=
  [ mkRange 0xAC00 0xD7A3;
    mkRange 0x3400 0x4DBF;
    mkRange 0x4E00 0x9FFF;
    mkRange 0x20000 0x2A6DF;
    mkRange 0x2A700 0x2B739;
    mkRange 0x2B740 0x2B81D;
    mkRange 0x2B820 0x2CEA1;
    mkRange 0x2CEB0 0x2EBE0;
    mkRange 0x2EBF0 0x2EE5D;
    mkRange 0x30000 0x3134A;
    mkRange 0x31350 0x323AF;
    mkRange 0x17000 0x187F7;
    mkRange 0x18D00 0x18D08;
    mkRange 0x18B00 0x18CD5;
    mkRange 0x1B170 0x1B2FB;
    mkRange 0xF900 0xFA6D;
    mkRange 0xFA70 0xFAD9;
    mkRange 0x2F800 0x2FA1D ].

(** The inner loop of [na_table_rs]: [ignore] starts [False] and is set by
    every range that holds [cp]. *)
Definition ignored (cp : Z) : bool :=
  fold_left (fun ignore rng => if contains rng cp then true else ignore)
            derived_na_ranges false.

(** The (code point, name) pairs [na_table_rs] writes, in order. *)
Definition na_rows (d : dict string string) : result (list (Z * string)) :=
  for_each
    (fun rows kv =>
       rng <- parse (fst kv) ;;
       let cp := start rng in
       if ignored cp then Ok rows else Ok (rows ++ [(cp, snd kv)]))
    d [].

Definition na_row_text (row : Z * string) : string :=
  ("    (0x" ++ hex04 (fst row) ++ ", " ++ dquote ++ snd row ++ dquote
   ++ ")," ++ nl)%string.

(** [na_table_rs], with the loaded [DerivedName.json] as its argument. *)
Definition na_table_rs (d : dict string string) : result string :=
  rows <- na_rows d ;;
  Ok ("#[allow(dead_code)]" ++ nl
      ++ "pub(super) const NA_MAP: &[(u32, &'static str)] = &[" ++ nl
      ++ join (map na_row_text rows)
      ++ "];" ++ nl)%string.

(** *** Decomposition mappings *)

(** After a ["<"]: the length of the longest match of [".+> "], where [n]
    characters have been taken by [".+"] already ([.] stops at a newline). *)
Fixpoint tag_match (t : string) (n : nat) : option nat :=
  match t with
  | EmptyString => None
  | String c t' =>
      if Ascii.eqb c newline then None
      else match tag_match t' (S n) with
           | Some k => Some k
           | None =>
               if (Nat.leb 1 n && Ascii.eqb c ">" && startswith_char t' space)%bool
               then Some (n + 2)%nat
               else None
           end
  end.

(** [re.sub('<.+> ', '', s)]: every leftmost, longest match is removed;
    [skip] counts the characters of the current match still to drop. *)
Fixpoint re_sub_tag_from (s : string) (skip : nat) : string :=
  match s with
  | EmptyString => EmptyString
  | String c s' =>
      match skip with
      | S k => re_sub_tag_from s' k
      | O =>
          if Ascii.eqb c "<" then
            match tag_match s' 0 with
            | Some k => re_sub_tag_from s' k
            | None => String c (re_sub_tag_from s' 0)
            end
          else String c (re_sub_tag_from s' 0)
      end
  end.

Definition re_sub_tag (s : string) : string := re_sub_tag_from s 0.

(** The text of one decomposition in [DM_MAP]: [\u{code}] per field. *)
Definition dm_escape (dm_raw : string) : string :=
  join (map (fun code => ("\u{" ++ code ++ "}")%string) (split_char space dm_raw)).

(** [str_as_escaped] *)
Definition str_as_escaped (s : list Z) : string :=
  join (map (fun ch => ("\u{" ++ hex04 ch ++ "}")%string) s).

(** [''.join(map(lambda x: chr(int(x, 16)), dm_raw.split(' ')))] *)
Definition dm_decode (dm_raw : string) : result (list Z) :=
  for_each (fun acc x => n <- int16 x ;; ch <- chr n ;; Ok (acc ++ [ch]))
           (split_char space dm_raw) [].

(** The first loop of [dm_map_rs]: the rows of [DM_MAP]. *)
Definition dm_rows (unicode_data : dict string (dict string string))
    : result (list (Z * string)) :=
  for_each
    (fun rows kp =>
       dm_raw <- getitem (snd kp) "dm"%string ;;
       if String.eqb dm_raw EmptyString then Ok rows
       else
         cp <- parse (fst kp) ;;
         let dm_raw := if startswith_char dm_raw "<" then re_sub_tag dm_raw
                       else dm_raw in
         Ok (rows ++ [(start cp, dm_escape dm_raw)]))
    unicode_data [].

(** The second loop of [dm_map_rs]: [rdm_list] before it is sorted. *)
Definition rdm_collect (unicode_data : dict string (dict string string))
    : result (list (list Z * string)) :=
  for_each
    (fun rdm_list kp =>
       dm_raw <- getitem (snd kp) "dm"%string ;;
       if String.eqb dm_raw EmptyString then Ok rdm_list
       else if startswith_char dm_raw "<" then Ok rdm_list
       else
         dm_str <- dm_decode dm_raw ;;
         Ok (rdm_list ++ [(dm_str, fst kp)]))
    unicode_data [].

(** What one entry of [UnicodeData.json] adds to [rdm_list]. *)
Definition rdm_step (kp : string * dict string string)
    : result (list (list Z * string)) :=
  dm_raw <- getitem (snd kp) "dm"%string ;;
  if String.eqb dm_raw EmptyString then Ok []
  else if startswith_char dm_raw "<" then Ok []
  else dm_str <- dm_decode dm_raw ;; Ok [(dm_str, fst kp)].

(** What one entry of [UnicodeData.json] adds to [DM_MAP]. *)
Definition dm_step (kp : string * dict string string)
    : result (list (Z * string)) :=
  dm_raw <- getitem (snd kp) "dm"%string ;;
  if String.eqb dm_raw EmptyString then Ok []
  else
    cp <- parse (fst kp) ;;
    Ok [(start cp,
         dm_escape (if startswith_char dm_raw "<" then re_sub_tag dm_raw
                    else dm_raw))].

(** The two tables [dm_map_rs] writes: the rows of [DM_MAP] and the sorted
    [rdm_list] behind [RDM_MAP]. *)
Definition dm_map_tables (unicode_data : dict string (dict string string))
    : result (list (Z * string) * list (list Z * string)) :=
  rows <- dm_rows unicode_data ;;
  rdm_list <- rdm_collect unicode_data ;;
  Ok (rows, sorted fst str_ltb rdm_list).

Definition dm_row_text (row : Z * string) : string :=
  ("    (0x" ++ hex04 (fst row) ++ ", " ++ dquote ++ snd row ++ dquote
   ++ ")," ++ nl)%string.

Definition rdm_row_text (pair : list Z * string) : string :=
  ("    (" ++ dquote ++ str_as_escaped (fst pair) ++ dquote ++ ", 0x"
   ++ snd pair ++ ")," ++ nl)%string.

(** [dm_map_rs], with the loaded [UnicodeData.json] as its argument. *)
Definition dm_map_rs (unicode_data : dict string (dict string string))
    : result string :=
  tables <- dm_map_tables unicode_data ;;
  Ok ("pub(super) const DM_MAP: &[(u32, &str)] = &[" ++ nl
      ++ join (map dm_row_text (fst tables))
      ++ "];" ++ nl ++ nl
      ++ "pub(super) const RDM_MAP: &[(&str, u32)] = &[" ++ nl
      ++ join (map rdm_row_text (snd tables))
      ++ "];" ++ nl)%string.

Definition sample_unicode_data : dict string (dict string string) :=
  [ ("00A8", [("na", "DIAERESIS"); ("dm", "<compat> 0020 0308")]);
    ("00C0", [("na", "LATIN CAPITAL LETTER A WITH GRAVE"); ("dm", "0041 0300")]);
    ("0041", [("na", "LATIN CAPITAL LETTER A"); ("dm", EmptyString)]) ]%string.

(** The values [make_data] reads are all [str]. *)
Definition as_range_data (data : list (CodePointRange * string)) : range_data :=
  map (fun p => (fst p, Some (snd p))) data.

(** ** Grouped emission of the emoji properties *)

Section Emoji.
Context {T : Type} `{TwoStageTableOps T}.

(** [tst.to_seshat(use=..., prefix=..., boolean=...)], the encoder of
    [ucd.collections]. *)
Variable to_seshat : T -> bool -> bool -> bool -> string.

(** The loaded [PropertyAliases.json]. *)
Variable property_aliases : dict string string.

(** One pass of the loop: the routine's name, its table and the [use] flag
    handed to the encoder. *)
Record routine : Type := mkRoutine {
  routine_alias : string;
  routine_table : T;
  routine_use : bool
}.

(** [enumerate(l)], counting from [i]. *)
Fixpoint enumerate_from {A : Type} (i : Z) (l : list A) : list (Z * A) :=
  match l with
  | [] => []
  | x :: l' => (i, x) :: enumerate_from (i + 1) l'
  end.

(** One pass of the loop over [enumerate(emoji_data_dict.keys())] in
    [__main__], for the index and key [ip]: [use] is [True] at index 0 and
    [False] elsewhere. *)
Definition emoji_pass
    (emoji_data_dict : dict string (list (CodePointRange * string)))
    (ip : Z * string) : result routine :=
  let use := if fst ip =? 0 then true else false in
  prop_alias <- to_snake_case (find_key_by_value property_aliases (snd ip)) ;;
  data <- getitem emoji_data_dict (snd ip) ;;
  tst <- select_minimal_tst prop_alias (as_range_data data) 1
           (Some "false"%string) None ;;
  Ok (mkRoutine prop_alias tst use).

(** The routines the loop emits, in order. *)
Definition emoji_routines
    (emoji_data_dict : dict string (list (CodePointRange * string)))
    : result (list routine) :=
  for_each
    (fun acc ip => r <- emoji_pass emoji_data_dict ip ;; Ok (acc ++ [r]))
    (enumerate_from 0 (keys emoji_data_dict)) [].

(** [emoji_props_rs]: the encoder's text of every routine, in order. *)
Definition emoji_props_rs
    (emoji_data_dict : dict string (list (CodePointRange * string)))
    : result string :=
  routines <- emoji_routines emoji_data_dict ;;
  Ok (join (map (fun r => to_seshat (routine_table r) (routine_use r) true true)
                routines)).

End Emoji.

(** A small [emoji-data.json] after [make_grouped_data], and the aliases of
    its properties. *)
Definition sample_emoji_data : dict string (list (CodePointRange * string)) :=
  [ ("Emoji", [ (mkRange 0x23 0x23, "true"); (mkRange 0x30 0x39, "true") ]);
    ("Emoji_Presentation", [ (mkRange 0x231A 0x231B, "true") ]);
    ("Extended_Pictographic", [ (mkRange 0xA9 0xA9, "true") ]) ]%string.

Definition sample_property_aliases : dict string string :=
  [ ("Emoji", "Emoji"); ("EPres", "Emoji_Presentation");
    ("ExtPict", "Extended_Pictographic") ]%string.

(** A small bidi-class mapping and a patch whose ranges are disjoint but
    not sorted. *)
Definition sample_bc_data : range_data :=
  [ (mkRange 0x41 0x5A, Some "L"); (mkRange 0x5BE 0x5BE, Some "R") ]%string.

Definition sample_bc_missing : Missing :=
  [ (mkRange 0x600 0x7BF, Some "AL"); (mkRange 0x590 0x5FF, Some "R") ]%string.

(** ** Predicates of the specification *)

(** [cp] lies in the inclusive interval [rng]. *)
Definition covers (rng : CodePointRange) (cp : Z) : Prop :=
  start rng <= cp <= end_ rng.

(** The invariant of a Range Mapping: every range is an interval of code
    points, [0 <= start <= end <= 0x10FFFF], and each range ends before any
    later one starts, which makes the ranges sorted by start and pairwise
    non-overlapping. *)
Definition valid_mapping {V : Type} (m : list (CodePointRange * V)) : Prop :=
  Forall (fun p => 0 <= start (fst p) <= end_ (fst p)
                   /\ end_ (fst p) <= 0x10FFFF) m
  /\ StronglySorted (fun p q => end_ (fst p) < start (fst q)) m.

(** Both ends of the range are code points. *)
Definition code_point_range (r : CodePointRange) : Prop :=
  0 <= start r <= 0x10FFFF /\ 0 <= end_ r <= 0x10FFFF.

(** Ascending by range start. *)
Definition by_start {V : Type} (p q : CodePointRange * V) : Prop :=
  start (fst p) <= start (fst q).

(** A code point inside one of the [derived_na_ranges]. *)
Definition excluded (cp : Z) : Prop :=
  exists rng, In rng derived_na_ranges /\ start rng <= cp <= end_ rng.

(** [a <= b] on two [str] given by their code points: the lexicographic
    order. *)
Inductive lex_le : list Z -> list Z -> Prop :=
| lex_le_nil : forall b, lex_le [] b
| lex_le_lt : forall x y a b, x < y -> lex_le (x :: a) (y :: b)
| lex_le_eq : forall x a b, lex_le a b -> lex_le (x :: a) (x :: b).

(** Ascending by string content. *)
Definition by_content {V : Type} (p q : list Z * V) : Prop :=
  lex_le (fst p) (fst q).

(** A small [DerivedName.json]: a listed name, a CJK ideograph and a Hangul
    syllable. *)
Definition sample_names : dict string string :=
  [ ("0041", "LATIN CAPITAL LETTER A");
    ("4E00", "CJK UNIFIED IDEOGRAPH-4E00");
    ("AC00", "HANGUL SYLLABLE GA") ]%string.

(** ** The other converters *)

(** [s.replace(a, b)] for one-character [a] and [b]. *)
Fixpoint replace_char (a b : ascii) (s : string) : string :=
  match s with
  | EmptyString => EmptyString
  | String c s' =>
      String (if Ascii.eqb c a then b else c) (replace_char a b s')
  end.

(** [s.upper()] on ASCII letters. *)
Definition upper_char (c : ascii) : ascii :=
  let n := nat_of_ascii c in
  if (Nat.leb 97 n && Nat.leb n 122)%bool then ascii_of_nat (n - 32) else c.

Fixpoint upper (s : string) : string :=
  match s with
  | EmptyString => EmptyString
  | String c s' => String (upper_char c) (upper s')
  end.

Definition is_alpha (c : ascii) : bool :=
  let n := nat_of_ascii c in
  ((Nat.leb 65 n && Nat.leb n 90) || (Nat.leb 97 n && Nat.leb n 122))%bool.

(** [s.title()] on ASCII: a letter that follows a letter is lowered, any
    other letter is raised, and the rest is kept. *)
Fixpoint title_from (prev_cased : bool) (s : string) : string :=
  match s with
  | EmptyString => EmptyString
  | String c s' =>
      if is_alpha c then
        String (if prev_cased then lower_char c else upper_char c)
               (title_from true s')
      else String c (title_from false s')
  end.

Definition title (s : string) : string := title_from false s.

(** [find_key_by_value_ci]: the token and each value are compared after
    ["-"] and ["_"] have become blanks and the letters capitals. *)
Fixpoint find_key_by_value_ci (d : dict string string) (val : string)
    : optstr :=
  match d with
  | [] => None
  | (k, v) :: d' =>
      let value := upper (replace_char "_" " " (replace_char "-" " " val)) in
      let cmp_val := upper (replace_char "-" " " (replace_char "_" " " v)) in
      if String.eqb value cmp_val then Some k
      else find_key_by_value_ci d' val
  end.

(** [to_pascal_case]; on [None] the call [val.split('_')] raises. *)
Definition to_pascal_case (val : optstr) : result string :=
  match val with
  | Some s => Ok (join (map title (split_char "_" s)))
  | None => Raise AttributeError
  end.

(** [data_value_as_abbr_blk], with the loaded [PropertyValueAliases.json] as
    an argument. *)
Definition data_value_as_abbr_blk
    (property_value_aliases : dict string (dict string string))
    (data : list (CodePointRange * string))
    : result (list (CodePointRange * string)) :=
  aliases <- getitem property_value_aliases "blk"%string ;;
  for_each
    (fun new_data pair =>
       let value := replace_char " " "_" (snd pair) in
       let value := replace_char "-" "_" value in
       let key := find_key_by_value_ci aliases value in
       abbr <- to_pascal_case key ;;
       Ok (new_data ++ [(fst pair, abbr)]))
    data [].

(** [l[i]] *)
Definition index {A : Type} (l : list A) (i : nat) : result A :=
  match nth_error l i with
  | Some x => Ok x
  | None => Raise IndexError
  end.

(** [to_age_data]: ["major.minor"] becomes ["Vmajor_minor"]. *)
Definition to_age_data (data : list (CodePointRange * string))
    : result (list (CodePointRange * string)) :=
  for_each
    (fun new_data pair =>
       let ver := split_char "." (snd pair) in
       major <- index ver 0 ;;
       minor <- index ver 1 ;;
       Ok (new_data ++ [(fst pair, ("V" ++ major ++ "_" ++ minor)%string)]))
    data [].

(** ** The other emitters *)

(** The name of the function for the property [k] in [binary_props_rs]:
    the loop over the aliases has no [break], so the last alias whose long
    name is [k] wins, and the name stays empty when there is none. *)
Definition binary_fn_name (property_aliases : dict string string)
    (k : string) : result string :=
  for_each
    (fun fn_name al =>
       if String.eqb (snd al) k then to_snake_case (Some (fst al))
       else Ok fn_name)
    property_aliases EmptyString.

Definition binary_open (fn_name : string) : string :=
  ("pub(crate) fn " ++ fn_name ++ "(cp: u32) -> bool {" ++ nl)%string.

Definition binary_check (r : CodePointRange) : string :=
  ("    if (0x" ++ hex04 (start r) ++ "..0x" ++ hex04 (end_ r)
   ++ " + 1).contains(&cp) {" ++ nl
   ++ "        return true;" ++ nl
   ++ "    }" ++ nl)%string.

Definition binary_false : string := (nl ++ "    false" ++ nl)%string.

(** The inner loop of [binary_props_rs]: one test per range. *)
Definition binary_checks (txt : string) (ranges : list string) : result string :=
  for_each
    (fun txt r => r <- parse r ;; Ok (txt ++ binary_check r)%string)
    ranges txt.

(** One pass of the outer loop of [binary_props_rs] on the state
    [(txt, prev_prop)]. *)
Definition binary_pass (property_aliases : dict string string)
    (st : string * string) (kr : string * list string)
    : result (string * string) :=
  let txt := fst st in
  let prev_prop := snd st in
  let k := fst kr in
  let txt := if (negb (String.eqb prev_prop k)
                 && negb (String.eqb prev_prop EmptyString))%bool
             then (txt ++ binary_false ++ "}" ++ nl ++ nl)%string
             else txt in
  txt <- (if negb (String.eqb prev_prop k)
          then fn_name <- binary_fn_name property_aliases k ;;
               Ok (txt ++ binary_open fn_name)%string
          else Ok txt) ;;
  txt <- binary_checks txt (snd kr) ;;
  Ok (txt, k).

(** [binary_props_rs], with the loaded [PropertyAliases.json] and
    [PropList.json] as arguments. *)
Definition binary_props_rs (property_aliases : dict string string)
    (d : dict string (list string)) : result string :=
  st <- for_each (binary_pass property_aliases) d (EmptyString, EmptyString) ;;
  Ok (fst st ++ binary_false ++ "}" ++ nl)%string.

(** [ce_rs], with the loaded [CompositionExclusions.json] (a list) as its
    argument: the code points of [CE_LIST], then the text. *)
Definition ce_list (ce_data : list string) : result (list Z) :=
  for_each (fun l code => r <- parse code ;; Ok (l ++ [start r])) ce_data [].

Definition ce_rs (ce_data : list string) : result string :=
  l <- ce_list ce_data ;;
  Ok ("const CE_LIST: &[u32] = &[" ++ nl
      ++ join (map (fun cp => ("    0x" ++ hex04 cp ++ "," ++ nl)%string) l)
      ++ "];" ++ nl ++ nl
      ++ "pub(crate) fn ce(cp: u32) -> bool {" ++ nl
      ++ "    if CE_LIST.contains(&cp) {" ++ nl
      ++ "        return true;" ++ nl
      ++ "    }" ++ nl
      ++ "    false" ++ nl
      ++ "}" ++ nl)%string.

(** ** The case-insensitive lookup on text of any script *)

(** [str.upper] and [str.title] follow the Unicode case mappings; [upper]
    and [title] above give them on ASCII text only.  In this module the two
    methods are parameters, so that the definitions are those of the source
    on any text: a [string] then holds the text in an encoding that leaves
    the ASCII characters alone (UTF-8), on which [replace], [split] and
    [==] act as on the text itself. *)
Module U.

Section CaseMappings.
Variable py_upper : string -> string.
Variable py_title : string -> string.

(** The form under which [find_key_by_value_ci] compares. *)
Definition ci_form (s : string) : string :=
  py_upper (replace_char "_" " " (replace_char "-" " " s)).

(** [find_key_by_value_ci] *)
Fixpoint find_key_by_value_ci (d : dict string string) (val : string)
    : optstr :=
  match d with
  | [] => None
  | (k, v) :: d' =>
      let value := py_upper (replace_char "_" " " (replace_char "-" " " val)) in
      let cmp_val := py_upper (replace_char "-" " " (replace_char "_" " " v)) in
      if String.eqb value cmp_val then Some k
      else find_key_by_value_ci d' val
  end.

(** [to_pascal_case]; on [None] the call [val.split('_')] raises. *)
Definition to_pascal_case (val : optstr) : result string :=
  match val with
  | Some s => Ok (join (map py_title (split_char "_" s)))
  | None => Raise AttributeError
  end.

(** [data_value_as_abbr_blk], with the loaded [PropertyValueAliases.json] as
    an argument. *)
Definition data_value_as_abbr_blk
    (property_value_aliases : dict string (dict string string))
    (data : list (CodePointRange * string))
    : result (list (CodePointRange * string)) :=
  aliases <- getitem property_value_aliases "blk"%string ;;
  for_each
    (fun new_data pair =>
       let value := replace_char " " "_" (snd pair) in
       let value := replace_char "-" "_" value in
       let key := find_key_by_value_ci aliases value in
       abbr <- to_pascal_case key ;;
       Ok (new_data ++ [(fst pair, abbr)]))
    data [].

End CaseMappings.

End U.

(** ** Reference forms *)

(** The text of one whole function of [binary_props_rs]. *)
Definition binary_fn_text (property_aliases : dict string string)
    (kr : string * list string) : result string :=
  fn_name <- binary_fn_name property_aliases (fst kr) ;;
  txt <- binary_checks (binary_open fn_name) (snd kr) ;;
  Ok (txt ++ binary_false ++ "}" ++ nl)%string.

(** The form under which [find_key_by_value_ci] compares. *)
Definition ci_form (s : string) : string :=
  upper (replace_char "_" " " (replace_char "-" " " s)).

(** No character of [s] is [c]. *)
Fixpoint char_free (c : ascii) (s : string) : bool :=
  match s with
  | EmptyString => true
  | String c' s' => negb (Ascii.eqb c' c) && char_free c s'
  end.

(** A small [PropList.json] and its aliases. *)
Definition sample_proplist : dict string (list string) :=
  [ ("White_Space", ["0009..000D"; "0020"]); ("Dash", ["002D"]) ]%string.

Definition sample_binary_aliases : dict string string :=
  [ ("WSpace", "White_Space"); ("space", "White_Space"); ("Dash", "Dash") ]%string.

(** A small block table. *)
Definition sample_blk_aliases : dict string (dict string string) :=
  [ ("blk", [ ("ASCII", "Basic_Latin"); ("Latin_1_Sup", "Latin_1_Supplement") ]) ]%string.

(** * Properties *)

(** ** The model on small inputs *)

Example parse_range : parse "AC00..D7A3" = Ok (mkRange 0xAC00 0xD7A3).
Proof. reflexivity. Qed.

Example parse_single : parse "0041" = Ok (mkRange 0x41 0x41).
Proof. reflexivity. Qed.

Example hex04_pads : hex04 0x41 = "0041"%string /\ hex04 0x1F600 = "1F600"%string.
Proof. split; reflexivity. Qed.

Example scenario_built :
  scenario_table []
  = Ok (TST.mkTable
          [0; 1; 2; 2]%nat
          [ ["A"; "A"; "A"; "Z"]; ["Z"; "B"; "Z"; "Z"]; ["Z"; "Z"; "Z"; "Z"] ]%string
          4 "Z"%string).
Proof. reflexivity. Qed.

Example scenario_lookup :
  (t <- scenario_table [] ;; TST.lookup t 5) = Ok "B"%string
  /\ (t <- scenario_table [] ;; TST.lookup t 12) = Ok "Z"%string.
Proof. split; reflexivity. Qed.

Example scenario_patch :
  (t <- scenario_table [(mkRange 1 1, "C"%string)] ;; TST.lookup t 1)
  = Ok "C"%string
  /\ (t <- scenario_table [(mkRange 1 1, "C"%string)] ;; TST.lookup t 0)
     = Ok "A"%string.
Proof. split; reflexivity. Qed.

Example scenario_unsorted_mapping :
  TST.make String.eqb 16 [(mkRange 5 5, "B"); (mkRange 0 2, "A")]%string
           4 "Z"%string []
  = Raise InvalidMappingError.
Proof. reflexivity. Qed.

Example scenario_overflow :
  TST.make String.eqb 16 scenario_mapping 4 "Z"%string
           [(mkRange 12 16, "C"%string)]
  = Raise DomainOverflowError.
Proof. reflexivity. Qed.

Example derived_na_ranges_parsed :
  map parse
    [ "AC00..D7A3"; "3400..4DBF"; "4E00..9FFF"; "20000..2A6DF";
      "2A700..2B739"; "2B740..2B81D"; "2B820..2CEA1"; "2CEB0..2EBE0";
      "2EBF0..2EE5D"; "30000..3134A"; "31350..323AF"; "17000..187F7";
      "18D00..18D08"; "18B00..18CD5"; "1B170..1B2FB"; "F900..FA6D";
      "FA70..FAD9"; "2F800..2FA1D" ]%string
  = map Ok derived_na_ranges.
Proof. reflexivity. Qed.

Example re_sub_tag_compat : re_sub_tag "<compat> 0020 0308" = "0020 0308"%string.
Proof. reflexivity. Qed.

Example re_sub_tag_greedy : re_sub_tag "<a> <b> 1" = "1"%string.
Proof. reflexivity. Qed.

Example re_sub_tag_none : re_sub_tag "<> 1" = "<> 1"%string.
Proof. reflexivity. Qed.

Example sample_dm_map_tables :
  dm_map_tables sample_unicode_data
  = Ok ([ (0xA8, "\u{0020}\u{0308}"); (0xC0, "\u{0041}\u{0300}") ]%string,
        [ ([0x41; 0x300], "00C0"%string) ]).
Proof. reflexivity. Qed.

Example ccc_unknown_token_raises :
  data_value_as_abbr_ccc [("ccc", [("0", "NR"); ("230", "A")])]%string
                         [(mkRange 0x300 0x314, "231"%string)]
  = Raise KeyError.
Proof. reflexivity. Qed.

Example to_snake_case_cases :
  to_snake_case (Some "ExtPict"%string) = Ok "ext_pict"%string
  /\ to_snake_case (Some "EPres"%string) = Ok "epres"%string
  /\ to_snake_case None = Raise AttributeError.
Proof. repeat split; reflexivity. Qed.

(** ** The block-size selector *)

Section SelectorFacts.
Context {T : Type} `{TwoStageTableOps T}.
Variable prop : string.
Variable data : range_data.
Variable rsize : Z.
Variable default_prop : optstr.
Variable missing : option Missing.

Lemma build_tables_unfold :
  build_tables prop data default_prop missing
  = map (fun b => (b, Some (tst_make prop data b default_prop missing)))
        candidate_sizes.
Proof. reflexivity. Qed.

Lemma all_tables_built :
  all_tables (values (build_tables prop data default_prop missing))
  = Ok (map (fun b => tst_make prop data b default_prop missing)
            candidate_sizes).
Proof. reflexivity. Qed.

(** The selector never raises: its result is the first minimum of the four
    tables. *)
Lemma select_minimal_tst_unfold :
  select_minimal_tst prop data rsize default_prop missing
  = Ok (min_from (fun x => table_bytes x rsize) Z.ltb
          (tst_make prop data 64 default_prop missing)
          (map (fun b => tst_make prop data b default_prop missing)
               [128; 256; 512])).
Proof. reflexivity. Qed.

(** Which block size wins, by the three comparisons of the [min] loop. *)
Lemma select_minimal_tst_cases :
  exists b,
    In b candidate_sizes
    /\ select_minimal_tst prop data rsize default_prop missing
       = Ok (tst_make prop data b default_prop missing)
    /\ Forall (fun b' =>
                 table_bytes (tst_make prop data b default_prop missing) rsize
                 <= table_bytes (tst_make prop data b' default_prop missing)
                      rsize)
              candidate_sizes
    /\ Forall (fun b' =>
                 b' < b ->
                 table_bytes (tst_make prop data b default_prop missing) rsize
                 < table_bytes (tst_make prop data b' default_prop missing)
                     rsize)
              candidate_sizes.
Proof.
  rewrite select_minimal_tst_unfold. unfold candidate_sizes. simpl.
  repeat (match goal with
          | |- context [?a <? ?b] =>
              lazymatch b with
              | context [if _ then _ else _] => fail
              | _ => destruct (Z.ltb_spec a b)
              end
          end; cbv iota);
    match goal with
    | |- exists b, _ /\ Ok (tst_make _ _ ?w _ _) = _ /\ _ =>
        exists w; split; [ tauto | split; [ reflexivity | ] ];
        split; repeat (apply Forall_cons; [ lia | ]); apply Forall_nil
    end.
Qed.

End SelectorFacts.

(** C1: whatever the property name, the (range, value) list and the
    repr_size, [select_minimal_tst] builds one table per block size of
    64, 128, 256, 512 (those and no others, each stored under its size) and
    returns one of them whose [table_bytes(repr_size)] is less than or equal
    to that of every candidate it built. *)
Theorem select_minimal_tst_minimal :
  forall (T : Type) (ops : TwoStageTableOps T) (prop : string)
         (data : range_data) (rsize : Z) (default_prop : optstr)
         (missing : option Missing),
    keys (build_tables prop data default_prop missing) = [64; 128; 256; 512]
    /\ values (build_tables prop data default_prop missing)
       = map (fun b => Some (tst_make prop data b default_prop missing))
             [64; 128; 256; 512]
    /\ exists t,
         select_minimal_tst prop data rsize default_prop missing = Ok t
         /\ In (Some t) (values (build_tables prop data default_prop missing))
         /\ Forall (fun b =>
                      table_bytes t rsize
                      <= table_bytes
                           (tst_make prop data b default_prop missing) rsize)
                   [64; 128; 256; 512].
Proof.
  intros T ops prop data rsize default_prop missing.
  split; [ reflexivity | split; [ reflexivity | ] ].
  destruct (select_minimal_tst_cases prop data rsize default_prop missing)
    as (b & Hin & Hsel & Hmin & _).
  exists (tst_make prop data b default_prop missing).
  split; [ exact Hsel | split; [ | exact Hmin ] ].
  rewrite build_tables_unfold. unfold values. rewrite map_map. simpl.
  unfold candidate_sizes in Hin. simpl in Hin.
  destruct Hin as [<- | [<- | [<- | [<- | []]]]]; tauto.
Qed.

(** C3: when several block sizes reach the least [table_bytes(repr_size)],
    [select_minimal_tst] returns the table built with the smallest of them:
    if [b] is a candidate of least cost and no candidate of the same cost
    is smaller, the result is the table built with [b]. *)
Theorem select_minimal_tst_tie_smallest :
  forall (T : Type) (ops : TwoStageTableOps T) (prop : string)
         (data : range_data) (rsize : Z) (default_prop : optstr)
         (missing : option Missing) (b : Z),
    In b [64; 128; 256; 512] ->
    (forall b', In b' [64; 128; 256; 512] ->
                table_bytes (tst_make prop data b default_prop missing) rsize
                <= table_bytes (tst_make prop data b' default_prop missing) rsize) ->
    (forall b', In b' [64; 128; 256; 512] ->
                table_bytes (tst_make prop data b' default_prop missing) rsize
                = table_bytes (tst_make prop data b default_prop missing) rsize ->
                b <= b') ->
    select_minimal_tst prop data rsize default_prop missing
    = Ok (tst_make prop data b default_prop missing).
Proof.
  intros T ops prop data rsize default_prop missing b Hb Hleast Hsmallest.
  destruct (select_minimal_tst_cases prop data rsize default_prop missing)
    as (w & Hw & Hsel & Hmin & Hfirst).
  rewrite Forall_forall in Hmin, Hfirst.
  assert (Hcost : table_bytes (tst_make prop data w default_prop missing) rsize
                  = table_bytes (tst_make prop data b default_prop missing) rsize).
  { apply Z.le_antisymm; [ apply Hmin; exact Hb | apply Hleast; exact Hw ]. }
  assert (Hbw : b <= w) by (apply Hsmallest; assumption).
  destruct (Z.eq_dec b w) as [-> | Hne]; [ exact Hsel | ].
  assert (Hlt : b < w) by lia.
  specialize (Hfirst b Hb Hlt). lia.
Qed.

Lemma select_minimal_tst_tie_smallest_witness :
  select_minimal_tst (H := tie_ops) "Gc" [] 1 None None = Ok 128.
Proof.
  apply (select_minimal_tst_tie_smallest Z tie_ops "Gc" [] 1 None None 128).
  - simpl; tauto.
  - intros b' Hb'. simpl in Hb'.
    destruct Hb' as [<- | [<- | [<- | [<- | []]]]]; vm_compute; congruence.
  - intros b' Hb'. simpl in Hb'.
    destruct Hb' as [<- | [<- | [<- | [<- | []]]]]; vm_compute; congruence.
Defined.

(** ** Alias resolution *)

(** [find_key_by_value] answers [None] exactly when no value of the table
    is the token. *)
Lemma find_key_by_value_None :
  forall (d : dict string string) (val : string),
    find_key_by_value d val = None <-> ~ In val (values d).
Proof.
  induction d as [| [k v] d IH]; intros val; simpl.
  - tauto.
  - destruct (String.eqb_spec v val) as [-> | Hne].
    + split; [ discriminate | intros Hn; exfalso; apply Hn; now left ].
    + rewrite IH. tauto.
Qed.

Lemma abbr_loop_app :
  forall (aliases : dict string string) (data : list (CodePointRange * string))
         (acc : range_data),
    fold_left
      (fun new_data pair =>
         new_data ++ [(fst pair, find_key_by_value aliases (snd pair))])
      data acc
    = acc ++ map (fun pair => (fst pair, find_key_by_value aliases (snd pair)))
                 data.
Proof.
  intros aliases data. induction data as [| p data IH]; intros acc; simpl.
  - now rewrite app_nil_r.
  - rewrite IH, <- app_assoc. reflexivity.
Qed.

(** Once the alias table of the property is found, [data_value_as_abbr]
    returns a pair for every pair it is given, and the pair of a token
    without an alias holds [None]. *)
Lemma data_value_as_abbr_total :
  forall (pva : dict string (dict string string))
         (data : list (CodePointRange * string)) (prop : string)
         (aliases : dict string string),
    getitem pva prop = Ok aliases ->
    data_value_as_abbr pva data prop
    = Ok (map (fun pair => (fst pair, find_key_by_value aliases (snd pair)))
              data).
Proof.
  intros pva data prop aliases Hget. unfold data_value_as_abbr.
  rewrite Hget. simpl. now rewrite abbr_loop_app.
Qed.

(** C4 (what the code does on a token without an alias): with the alias
    table [{"Grek": "Greek"}] for [sc], the token ["Latin"] has no alias;
    [data_value_as_abbr] does not raise and returns the pair with [None] in
    place of the alias, and [patch_data] likewise appends the range with
    [None] (alias table [{"R": "Right_To_Left"}] for [bc], token
    ["Left_To_Right"]). *)
Theorem missing_alias_not_raised :
  data_value_as_abbr [("sc", [("Grek", "Greek")])]%string
                     [(mkRange 0x41 0x5A, "Latin"%string)] "sc"
  = Ok [(mkRange 0x41 0x5A, None)]
  /\ patch_data [("bc", [("R", "Right_To_Left")])]%string
                [("0041..005A", "Left_To_Right")]%string "bc"
     = Ok [(mkRange 0x41 0x5A, None)].
Proof. split; reflexivity. Qed.

(** ** Sorting *)

Section SortedFacts.
Context {A K : Type}.
Variable key : A -> K.
Variable ltb : K -> K -> bool.
Variable le : K -> K -> Prop.
Hypothesis ltb_le : forall a b, ltb a b = true -> le a b.
Hypothesis nltb_le : forall a b, ltb a b = false -> le b a.
Hypothesis le_trans : forall a b c, le a b -> le b c -> le a c.

Lemma insert_perm :
  forall (x : A) (l : list A), Permutation (insert key ltb x l) (x :: l).
Proof.
  intros x l. induction l as [| y l IH]; simpl.
  - apply Permutation_refl.
  - destruct (ltb (key y) (key x)).
    + eapply Permutation_trans; [ apply perm_skip, IH | apply perm_swap ].
    + apply Permutation_refl.
Qed.

Lemma sorted_perm : forall l : list A, Permutation (sorted key ltb l) l.
Proof.
  induction l as [| x l IH]; simpl.
  - apply perm_nil.
  - eapply Permutation_trans; [ apply insert_perm | apply perm_skip, IH ].
Qed.

Lemma insert_sorted :
  forall (x : A) (l : list A),
    StronglySorted (fun a b => le (key a) (key b)) l ->
    StronglySorted (fun a b => le (key a) (key b)) (insert key ltb x l).
Proof.
  intros x l Hs. induction Hs as [| y l Hs IH Hy]; simpl.
  - constructor; constructor.
  - destruct (ltb (key y) (key x)) eqn:E.
    + constructor; [ exact IH | ].
      eapply Permutation_Forall; [ apply Permutation_sym, insert_perm | ].
      constructor; [ apply ltb_le; exact E | exact Hy ].
    + constructor; [ constructor; assumption | ].
      constructor; [ apply nltb_le; exact E | ].
      eapply Forall_impl; [ | exact Hy ].
      intros z Hz. eapply le_trans; [ apply nltb_le; exact E | exact Hz ].
Qed.

Lemma sorted_sorted :
  forall l : list A,
    StronglySorted (fun a b => le (key a) (key b)) (sorted key ltb l).
Proof.
  induction l as [| x l IH]; simpl.
  - constructor.
  - apply insert_sorted, IH.
Qed.

End SortedFacts.

Lemma sorted_by_start :
  forall (V : Type) (l : list (CodePointRange * V)),
    StronglySorted by_start (sorted fst range_ltb l).
Proof.
  intros V l.
  apply (sorted_sorted fst range_ltb (fun a b => start a <= start b)).
  - intros a b E. unfold range_ltb in E. apply Z.ltb_lt in E. lia.
  - intros a b E. unfold range_ltb in E. apply Z.ltb_ge in E. lia.
  - intros a b c; lia.
Qed.

(** ** Loops that collect *)

Lemma Forall2_pick_l :
  forall (A B : Type) (R : A -> B -> Prop) (xs : list A) (ys : list B) (x : A),
    Forall2 R xs ys -> In x xs -> exists y, In y ys /\ R x y.
Proof.
  intros A B R xs ys x HF. induction HF as [| x' y' xs ys Hr HF IH]; simpl.
  - intros [].
  - intros [-> | Hx].
    + exists y'. auto.
    + destruct (IH Hx) as (y & Hy & Hxy). exists y. auto.
Qed.

Lemma Forall2_pick_r :
  forall (A B : Type) (R : A -> B -> Prop) (xs : list A) (ys : list B) (y : B),
    Forall2 R xs ys -> In y ys -> exists x, In x xs /\ R x y.
Proof.
  intros A B R xs ys y HF. induction HF as [| x' y' xs ys Hr HF IH]; simpl.
  - intros [].
  - intros [-> | Hy].
    + exists x'. auto.
    + destruct (IH Hy) as (x & Hx & Hxy). exists x. auto.
Qed.

Section Collect.
Context {A B : Type}.
Variable body : list B -> A -> result (list B).
Variable step : A -> result (list B).
Hypothesis body_step :
  forall acc x, body acc x = bind (step x) (fun ys => Ok (acc ++ ys)).

(** A loop whose pass appends what [step] yields returns the passes'
    yields in order, and raises as soon as a pass does. *)
Lemma for_each_collect :
  forall (xs : list A) (acc r : list B),
    for_each body xs acc = Ok r <->
    exists yss, Forall2 (fun x ys => step x = Ok ys) xs yss
                /\ r = acc ++ List.concat yss.
Proof.
  induction xs as [| x xs IH]; intros acc r; simpl.
  - split.
    + intros E. injection E as <-. exists []. split; [ constructor | ].
      simpl. now rewrite app_nil_r.
    + intros (yss & HF & ->). inversion HF; subst. simpl.
      now rewrite app_nil_r.
  - rewrite body_step. destruct (step x) as [ys | e] eqn:Ex; simpl.
    + rewrite IH. split.
      * intros (yss & HF & ->). exists (ys :: yss). split.
        -- constructor; assumption.
        -- simpl. now rewrite app_assoc.
      * intros (yss & HF & ->). inversion HF as [| ? ys' ? yss' Hs HF']; subst.
        rewrite Ex in Hs. injection Hs as <-.
        exists yss'. split; [ assumption | ]. simpl. now rewrite app_assoc.
    + split; [ discriminate | ].
      intros (yss & HF & _). inversion HF as [| ? ys' ? yss' Hs HF']; subst.
      rewrite Ex in Hs. discriminate.
Qed.

Lemma for_each_collect_In :
  forall (xs : list A) (r : list B) (y : B),
    for_each body xs [] = Ok r ->
    (In y r <-> exists x ys, In x xs /\ step x = Ok ys /\ In y ys).
Proof.
  intros xs r y E. apply for_each_collect in E. destruct E as (yss & HF & ->).
  simpl. rewrite in_concat. split.
  - intros (ys & Hys & Hy).
    destruct (Forall2_pick_r _ _ _ _ _ _ HF Hys) as (x & Hx & Hs).
    exists x, ys. auto.
  - intros (x & ys & Hx & Hs & Hy).
    destruct (Forall2_pick_l _ _ _ _ _ _ HF Hx) as (ys' & Hys' & Hs').
    rewrite Hs in Hs'. injection Hs' as <-. exists ys. auto.
Qed.

(** Such a loop returns when every pass does. *)
Lemma for_each_collect_total :
  forall xs : list A,
    Forall (fun x => exists ys, step x = Ok ys) xs ->
    exists r, for_each body xs [] = Ok r.
Proof.
  intros xs HF.
  assert (Hy : exists yss, Forall2 (fun x ys => step x = Ok ys) xs yss).
  { induction HF as [| x xs (ys & Hs) _ (yss & IH)].
    - exists []. constructor.
    - exists (ys :: yss). constructor; assumption. }
  destruct Hy as (yss & Hy). exists ([] ++ List.concat yss).
  apply for_each_collect. exists yss. auto.
Qed.

End Collect.

(** ** Ingestion *)

Lemma for_each_invariant :
  forall (A S : Type) (P : S -> Prop) (body : S -> A -> result S),
    (forall s x s', P s -> body s x = Ok s' -> P s') ->
    forall (xs : list A) (acc r : S),
      P acc -> for_each body xs acc = Ok r -> P r.
Proof.
  intros A S P body Hstep xs.
  induction xs as [| x xs IH]; intros acc r Hacc E; simpl in E.
  - injection E as <-. exact Hacc.
  - destruct (body acc x) as [s' | e] eqn:Eb; simpl in E; [ | discriminate ].
    eapply IH; [ | exact E ]. eapply Hstep; eassumption.
Qed.

Lemma setitem_Forall :
  forall (K V : Type) (kk : Key K) (P : V -> Prop) (d : dict K V) (k : K)
         (v : V),
    Forall (fun kv => P (snd kv)) d -> P v ->
    Forall (fun kv => P (snd kv)) (setitem d k v).
Proof.
  intros K V kk P d k v Hd Hv. induction Hd as [| [k' v'] d Hkv Hd IH]; simpl.
  - constructor; [ exact Hv | constructor ].
  - destruct (key_eqb k' k); constructor; assumption.
Qed.

Lemma make_data_sorted :
  forall (d : dict string string) (data : list (CodePointRange * string)),
    make_data d = Ok data -> StronglySorted by_start data.
Proof.
  intros d data E. unfold make_data in E.
  destruct (for_each _ d []) as [l | e]; simpl in E; [ | discriminate ].
  injection E as <-. apply sorted_by_start.
Qed.

(** [make_data] returns when every key of the file reads as a range, and
    what it returns is a rearrangement of the entries read. *)
Lemma make_data_returns :
  forall d : dict string string,
    Forall (fun kv => exists r, parse (fst kv) = Ok r) d ->
    exists data, make_data d = Ok data /\ List.length data = List.length d.
Proof.
  intros d Hd. unfold make_data.
  pose (step := fun kv : string * string =>
                  bind (parse (fst kv)) (fun r => Ok [(r, snd kv)])).
  assert (Hbody : forall acc kv,
             (fun data kv => cp_range <- parse (fst kv) ;;
                             Ok (data ++ [(cp_range, snd kv)])) acc kv
             = bind (step kv) (fun ys => Ok (acc ++ ys))).
  { intros acc kv. unfold step. destruct (parse (fst kv)); reflexivity. }
  destruct (for_each _ d []) as [l | e] eqn:E.
  - exists (sorted fst range_ltb l). split; [ reflexivity | ].
    rewrite (Permutation_length (sorted_perm fst range_ltb l)).
    apply (for_each_collect _ step Hbody) in E.
    destruct E as (yss & HF & ->). simpl.
    clear Hd Hbody. induction HF as [| kv ys d yss Hs HF IH]; simpl.
    + reflexivity.
    + unfold step in Hs. destruct (parse (fst kv)); simpl in Hs;
        [ | discriminate ].
      injection Hs as <-. simpl. now rewrite IH.
  - exfalso.
    assert (Ht : Forall (fun kv => exists ys, step kv = Ok ys) d).
    { eapply Forall_impl; [ | exact Hd ]. intros kv (r & Hr).
      unfold step. rewrite Hr. simpl. eauto. }
    destruct (for_each_collect_total _ step Hbody d Ht) as (r & Hr).
    rewrite Hr in E. discriminate.
Qed.

Lemma make_grouped_data_sorted :
  forall (d : dict string (list string))
         (data_dict : dict string (list (CodePointRange * string))),
    make_grouped_data d = Ok data_dict ->
    Forall (fun kv => StronglySorted by_start (snd kv)) data_dict.
Proof.
  intros d data_dict E. unfold make_grouped_data in E.
  revert E. apply for_each_invariant; [ | constructor ].
  intros s pr s' Hs Eb.
  destruct (for_each _ (snd pr) []) as [lst | e]; simpl in Eb;
    [ | discriminate ].
  injection Eb as <-.
  apply setitem_Forall; [ | apply sorted_by_start ].
  apply setitem_Forall; [ exact Hs | constructor ].
Qed.

(** C9: the (range, value) list [make_data] returns is sorted ascending by
    range start, and so is every per-property list in the dict
    [make_grouped_data] returns. *)
Theorem ingestion_sorted_by_start :
  (forall (d : dict string string) (data : list (CodePointRange * string)),
      make_data d = Ok data -> StronglySorted by_start data)
  /\ (forall (d : dict string (list string))
             (data_dict : dict string (list (CodePointRange * string))),
        make_grouped_data d = Ok data_dict ->
        Forall (fun kv => StronglySorted by_start (snd kv)) data_dict).
Proof.
  split; [ exact make_data_sorted | exact make_grouped_data_sorted ].
Qed.

Lemma ingestion_sorted_by_start_witness :
  StronglySorted by_start
    [ (mkRange 0x41 0x5A, "Lu"); (mkRange 0x61 0x7A, "Ll");
      (mkRange 0x1C5 0x1C5, "Lt") ]%string
  /\ Forall (fun kv => StronglySorted by_start (snd kv))
       [ ("Emoji", [ (mkRange 0x23 0x23, "true"); (mkRange 0x30 0x39, "true") ]);
         ("Emoji_Presentation", [ (mkRange 0x231A 0x231B, "true") ]) ]%string.
Proof.
  split.
  - apply (proj1 ingestion_sorted_by_start
             [ ("0061..007A", "Ll"); ("01C5", "Lt"); ("0041..005A", "Lu") ]%string).
    reflexivity.
  - apply (proj2 ingestion_sorted_by_start
             [ ("Emoji", ["0030..0039"; "0023"]);
               ("Emoji_Presentation", ["231A..231B"]) ]%string).
    reflexivity.
Defined.

(** ** The name table *)

Lemma contains_spec :
  forall (rng : CodePointRange) (cp : Z),
    contains rng cp = true <-> start rng <= cp <= end_ rng.
Proof.
  intros rng cp. unfold contains. rewrite andb_true_iff, !Z.leb_le. tauto.
Qed.

Lemma ignore_loop :
  forall (cp : Z) (rngs : list CodePointRange) (ignore : bool),
    fold_left (fun ignore rng => if contains rng cp then true else ignore)
              rngs ignore
    = ignore || existsb (fun rng => contains rng cp) rngs.
Proof.
  intros cp rngs. induction rngs as [| r rngs IH]; intros ignore; simpl.
  - now rewrite orb_false_r.
  - rewrite IH. destruct (contains r cp), ignore; reflexivity.
Qed.

Lemma ignored_spec : forall cp : Z, ignored cp = true <-> excluded cp.
Proof.
  intros cp. unfold ignored, excluded. rewrite ignore_loop, orb_false_l.
  rewrite existsb_exists. split.
  - intros (r & Hr & Hc). exists r. split; [ exact Hr | ].
    now apply contains_spec.
  - intros (r & Hr & Hc). exists r. split; [ exact Hr | ].
    now apply contains_spec.
Qed.

(** A pair (code point, name) is among the rows exactly when it comes from
    an entry of the input whose code point is inside none of the
    [derived_na_ranges]. *)
Lemma na_rows_entries :
  forall (d : dict string string) (rows : list (Z * string)),
    na_rows d = Ok rows ->
    forall (cp : Z) (name : string),
      In (cp, name) rows <->
      exists k rng,
        In (k, name) d /\ parse k = Ok rng /\ start rng = cp
        /\ ~ excluded cp.
Proof.
  intros d rows Er cp name. unfold na_rows in Er.
  pose (step := fun kv : string * string =>
          bind (parse (fst kv))
               (fun rng => if ignored (start rng) then Ok []
                           else Ok [(start rng, snd kv)])).
  match type of Er with
  | for_each ?body _ _ = _ =>
      assert (Hbody : forall acc x,
                 body acc x = bind (step x) (fun ys => Ok (acc ++ ys)))
  end.
  { intros acc kv. unfold step. destruct (parse (fst kv)); simpl;
      [ | reflexivity ].
    destruct (ignored _); simpl; [ now rewrite app_nil_r | reflexivity ]. }
  rewrite (for_each_collect_In _ step Hbody d rows (cp, name) Er).
  split.
  - intros ([k v] & ys & Hin & Hs & Hy). unfold step in Hs. simpl in Hs.
    destruct (parse k) as [rng | e] eqn:Ep; simpl in Hs; [ | discriminate ].
    destruct (ignored (start rng)) eqn:Ei; injection Hs as <-;
      [ destruct Hy | ].
    destruct Hy as [Hy | []]. injection Hy as <- <-.
    exists k, rng. repeat split; try assumption.
    rewrite <- ignored_spec, Ei. discriminate.
  - intros (k & rng & Hin & Ep & <- & Hex).
    exists (k, name), [(start rng, name)]. split; [ exact Hin | ].
    split; [ | now left ]. unfold step. simpl. rewrite Ep. simpl.
    destruct (ignored (start rng)) eqn:Ei; [ | reflexivity ].
    exfalso. apply Hex. now apply ignored_spec.
Qed.

(** ** The decomposition tables *)

Lemma str_ltb_lex_le :
  forall a b : list Z, str_ltb a b = true -> lex_le a b.
Proof.
  induction a as [| x a IH]; intros b E.
  - constructor.
  - destruct b as [| y b]; simpl in E; [ discriminate | ].
    destruct (Z.ltb_spec x y) as [Hxy | Hxy]; [ now constructor | ].
    destruct (Z.ltb_spec y x) as [Hyx | Hyx]; [ discriminate | ].
    assert (x = y) by lia. subst y. apply lex_le_eq, IH, E.
Qed.

Lemma str_nltb_lex_le :
  forall a b : list Z, str_ltb a b = false -> lex_le b a.
Proof.
  induction a as [| x a IH]; intros b E.
  - destruct b as [| y b]; [ constructor | discriminate ].
  - destruct b as [| y b]; [ constructor | ]. simpl in E.
    destruct (Z.ltb_spec x y) as [Hxy | Hxy]; [ discriminate | ].
    destruct (Z.ltb_spec y x) as [Hyx | Hyx]; [ now constructor | ].
    assert (x = y) by lia. subst y. apply lex_le_eq, IH, E.
Qed.

Lemma lex_le_trans :
  forall a b c : list Z, lex_le a b -> lex_le b c -> lex_le a c.
Proof.
  intros a b c Hab. revert c.
  induction Hab as [b | x y a b Hxy | x a b Hab IH]; intros c Hbc.
  - constructor.
  - inversion Hbc; subst; constructor; lia.
  - inversion Hbc; subst.
    + now constructor.
    + apply lex_le_eq, IH. assumption.
Qed.

Lemma sorted_by_content :
  forall (V : Type) (l : list (list Z * V)),
    StronglySorted by_content (sorted fst str_ltb l).
Proof.
  intros V l. apply (sorted_sorted fst str_ltb lex_le).
  - exact str_ltb_lex_le.
  - exact str_nltb_lex_le.
  - exact lex_le_trans.
Qed.

Lemma rdm_collect_In :
  forall (ud : dict string (dict string string))
         (l : list (list Z * string)) (y : list Z * string),
    rdm_collect ud = Ok l ->
    (In y l <-> exists kp ys, In kp ud /\ rdm_step kp = Ok ys /\ In y ys).
Proof.
  intros ud l y E. unfold rdm_collect in E.
  refine (for_each_collect_In _ rdm_step _ ud l y E).
  intros acc kp. unfold rdm_step.
  destruct (getitem (snd kp) "dm"%string) as [dm_raw | e]; simpl;
    [ | reflexivity ].
  destruct (String.eqb dm_raw EmptyString); simpl; [ now rewrite app_nil_r | ].
  destruct (startswith_char dm_raw "<"); simpl; [ now rewrite app_nil_r | ].
  destruct (dm_decode dm_raw); reflexivity.
Qed.

Lemma dm_rows_In :
  forall (ud : dict string (dict string string))
         (l : list (Z * string)) (y : Z * string),
    dm_rows ud = Ok l ->
    (In y l <-> exists kp ys, In kp ud /\ dm_step kp = Ok ys /\ In y ys).
Proof.
  intros ud l y E. unfold dm_rows in E.
  refine (for_each_collect_In _ dm_step _ ud l y E).
  intros acc kp. unfold dm_step.
  destruct (getitem (snd kp) "dm"%string) as [dm_raw | e]; simpl;
    [ | reflexivity ].
  destruct (String.eqb dm_raw EmptyString); simpl; [ now rewrite app_nil_r | ].
  destruct (parse (fst kp)); reflexivity.
Qed.

(** Every entry is passed when the first loop returns. *)
Lemma dm_rows_each :
  forall (ud : dict string (dict string string)) (l : list (Z * string))
         (kp : string * dict string string),
    dm_rows ud = Ok l -> In kp ud ->
    exists ys, dm_step kp = Ok ys /\ incl ys l.
Proof.
  intros ud l kp E Hin.
  assert (Hall : forall y, In y l <->
                   exists kp ys, In kp ud /\ dm_step kp = Ok ys /\ In y ys)
    by (intros y; now apply dm_rows_In).
  unfold dm_rows in E.
  match type of E with
  | for_each ?body _ _ = _ =>
      assert (Hbody : forall acc x,
                 body acc x = bind (dm_step x) (fun ys => Ok (acc ++ ys)))
  end.
  { intros acc kp'. unfold dm_step.
    destruct (getitem (snd kp') "dm"%string) as [dm_raw | e]; simpl;
      [ | reflexivity ].
    destruct (String.eqb dm_raw EmptyString); simpl; [ now rewrite app_nil_r | ].
    destruct (parse (fst kp')); reflexivity. }
  apply (for_each_collect _ dm_step Hbody) in E.
  destruct E as (yss & HF & _).
  destruct (Forall2_pick_l _ _ _ _ _ _ HF Hin) as (ys & _ & Hs).
  exists ys. split; [ exact Hs | ].
  intros y Hy. apply Hall. exists kp, ys. auto.
Qed.

Lemma dict_unique :
  forall (K V : Type) (d : dict K V) (k : K) (v1 v2 : V),
    NoDup (keys d) -> In (k, v1) d -> In (k, v2) d -> v1 = v2.
Proof.
  intros K V d k v1 v2. unfold keys.
  induction d as [| [k' v'] d IH]; simpl; intros Hnd H1 H2; [ destruct H1 | ].
  inversion Hnd as [| ? ? Hnot Hnd']; subst.
  destruct H1 as [H1 | H1], H2 as [H2 | H2].
  - congruence.
  - injection H1 as -> ->. exfalso. apply Hnot.
    change k with (fst (k, v2)). now apply in_map.
  - injection H2 as -> ->. exfalso. apply Hnot.
    change k with (fst (k, v1)). now apply in_map.
  - now apply IH.
Qed.

Lemma rdm_entry_source :
  forall (ud : dict string (dict string string))
         (l : list (list Z * string)) (s : list Z) (k : string),
    rdm_collect ud = Ok l -> In (s, k) l ->
    exists props dm_raw,
      In (k, props) ud
      /\ getitem props "dm"%string = Ok dm_raw
      /\ dm_raw <> EmptyString
      /\ startswith_char dm_raw "<" = false
      /\ dm_decode dm_raw = Ok s.
Proof.
  intros ud l s k E Hin.
  apply (rdm_collect_In ud l (s, k) E) in Hin.
  destruct Hin as ([k' props] & ys & Hkp & Hs & Hy).
  unfold rdm_step in Hs. simpl in Hs.
  destruct (getitem props "dm"%string) as [dm_raw | e] eqn:Eg; simpl in Hs;
    [ | discriminate ].
  destruct (String.eqb_spec dm_raw EmptyString) as [-> | Hne];
    [ injection Hs as <-; destruct Hy | ].
  destruct (startswith_char dm_raw "<") eqn:Et;
    [ injection Hs as <-; destruct Hy | ].
  destruct (dm_decode dm_raw) as [dm_str | e] eqn:Ed; simpl in Hs;
    [ | discriminate ].
  injection Hs as <-. destruct Hy as [Hy | []]. injection Hy as -> ->.
  exists props, dm_raw. auto.
Qed.

(** C7: the list behind [RDM_MAP] is sorted ascending by the content of
    the decomposition string, and every entry of it was made from an entry
    of the input whose [dm] field is not empty and does not begin with
    ["<"], so that no tagged (compatibility) decomposition is in it. *)
Theorem rdm_map_canonical_sorted :
  forall (ud : dict string (dict string string))
         (dm : list (Z * string)) (rdm : list (list Z * string)),
    dm_map_tables ud = Ok (dm, rdm) ->
    StronglySorted by_content rdm
    /\ forall (s : list Z) (k : string),
         In (s, k) rdm ->
         exists props dm_raw,
           In (k, props) ud
           /\ getitem props "dm"%string = Ok dm_raw
           /\ dm_raw <> EmptyString
           /\ startswith_char dm_raw "<" = false
           /\ dm_decode dm_raw = Ok s.
Proof.
  intros ud dm rdm E. unfold dm_map_tables in E.
  destruct (dm_rows ud) as [rows | e]; simpl in E; [ | discriminate ].
  destruct (rdm_collect ud) as [l | e] eqn:El; simpl in E; [ | discriminate ].
  injection E as <- <-. split; [ apply sorted_by_content | ].
  intros s k Hin. apply (rdm_entry_source ud l s k El).
  eapply Permutation_in; [ apply (sorted_perm fst str_ltb) | exact Hin ].
Qed.

Lemma rdm_map_canonical_sorted_witness :
  StronglySorted by_content [ ([0x41; 0x300], "00C0"%string) ]
  /\ forall (s : list Z) (k : string),
       In (s, k) [ ([0x41; 0x300], "00C0"%string) ] ->
       exists props dm_raw,
         In (k, props) sample_unicode_data
         /\ getitem props "dm"%string = Ok dm_raw
         /\ dm_raw <> EmptyString
         /\ startswith_char dm_raw "<" = false
         /\ dm_decode dm_raw = Ok s.
Proof.
  apply (rdm_map_canonical_sorted sample_unicode_data
           [ (0xA8, "\u{0020}\u{0308}"); (0xC0, "\u{0041}\u{0300}") ]%string).
  reflexivity.
Defined.

(** An entry whose [dm] field begins with ["<"] gets a row in the first
    table, made from the field with the tag removed, and no entry in the
    second. *)
Lemma dm_tables_tagged :
  forall (ud : dict string (dict string string))
         (dm : list (Z * string)) (rdm : list (list Z * string))
         (k : string) (props : dict string string) (dm_raw : string),
    NoDup (keys ud) ->
    dm_map_tables ud = Ok (dm, rdm) ->
    In (k, props) ud ->
    getitem props "dm"%string = Ok dm_raw ->
    startswith_char dm_raw "<" = true ->
    (exists cp, parse k = Ok cp
                /\ In (start cp, dm_escape (re_sub_tag dm_raw)) dm)
    /\ forall s : list Z, ~ In (s, k) rdm.
Proof.
  intros ud dm rdm k props dm_raw Hnd E Hin Hget Htag.
  unfold dm_map_tables in E.
  destruct (dm_rows ud) as [rows | e] eqn:Er; simpl in E; [ | discriminate ].
  destruct (rdm_collect ud) as [l | e] eqn:El; simpl in E; [ | discriminate ].
  injection E as <- <-. split.
  - destruct (dm_rows_each ud rows (k, props) Er Hin) as (ys & Hs & Hincl).
    unfold dm_step in Hs. simpl in Hs. rewrite Hget in Hs. simpl in Hs.
    destruct (String.eqb_spec dm_raw EmptyString) as [-> | Hne]; [ discriminate | ].
    destruct (parse k) as [cp | e] eqn:Ep; simpl in Hs; [ | discriminate ].
    injection Hs as <-. rewrite Htag in Hincl.
    exists cp. split; [ reflexivity | ]. apply Hincl. now left.
  - intros s Hs.
    assert (Hl : In (s, k) l)
      by (eapply Permutation_in; [ apply (sorted_perm fst str_ltb) | exact Hs ]).
    destruct (rdm_entry_source ud l s k El Hl)
      as (props' & dm_raw' & Hin' & Hget' & _ & Htag' & _).
    assert (props' = props) by (eapply dict_unique; eassumption).
    subst props'. rewrite Hget in Hget'. injection Hget' as <-.
    rewrite Htag in Htag'. discriminate.
Qed.

(** ** Grouped emission *)

Section EmojiFacts.
Context {T : Type} `{TwoStageTableOps T}.
Variable property_aliases : dict string string.
Variable emoji_data_dict : dict string (list (CodePointRange * string)).



End EmojiFacts.




(** ** The two-stage table *)

Section BuilderFacts.
Context {Value : Type}.
Variable value_eqb : Value -> Value -> bool.
Hypothesis value_eqb_eq : forall a b, value_eqb a b = true <-> a = b.
Variable domain_size : Z.

Lemma block_eqb_eq :
  forall a b : list Value, TST.block_eqb value_eqb a b = true <-> a = b.
Proof.
  induction a as [| x a IH]; intros [| y b]; simpl;
    try (split; [ discriminate | discriminate ]); [ tauto | ].
  rewrite andb_true_iff, value_eqb_eq, IH. split.
  - intros [-> ->]. reflexivity.
  - intros E. injection E as -> ->. auto.
Qed.

Lemma slot_of_Some :
  forall (c : list Value) (s2 : list (list Value)) (j : nat),
    TST.slot_of value_eqb c s2 = Some j -> nth_error s2 j = Some c.
Proof.
  intros c s2. induction s2 as [| c' s2 IH]; intros j E; simpl in E.
  - discriminate.
  - destruct (TST.block_eqb value_eqb c' c) eqn:Eb.
    + injection E as <-. apply block_eqb_eq in Eb. now subst.
    + destruct (TST.slot_of value_eqb c s2) as [j' |]; [ | discriminate ].
      injection E as <-. simpl. now apply IH.
Qed.

(** A block equal to an earlier one gets the slot of the earlier one. *)
Lemma slot_of_None :
  forall (c : list Value) (s2 : list (list Value)),
    TST.slot_of value_eqb c s2 = None -> ~ In c s2.
Proof.
  intros c s2. induction s2 as [| c' s2 IH]; intros E; simpl in *.
  - tauto.
  - destruct (TST.block_eqb value_eqb c' c) eqn:Eb; [ discriminate | ].
    destruct (TST.slot_of value_eqb c s2); [ discriminate | ].
    intros [-> | Hin]; [ | now apply IH ].
    assert (Ht : TST.block_eqb value_eqb c c = true) by now apply block_eqb_eq.
    congruence.
Qed.

Lemma add_block_slot :
  forall (s1 : list nat) (s2 : list (list Value)) (c : list Value),
    exists j ext,
      TST.add_block value_eqb (s1, s2) c = (s1 ++ [j], s2 ++ ext)
      /\ nth_error (s2 ++ ext) j = Some c.
Proof.
  intros s1 s2 c. unfold TST.add_block. simpl.
  destruct (TST.slot_of value_eqb c s2) as [j |] eqn:Es.
  - exists j, []. rewrite app_nil_r. split; [ reflexivity | ].
    now apply slot_of_Some.
  - exists (List.length s2), [c]. split; [ reflexivity | ].
    rewrite nth_error_app2, Nat.sub_diag; [ reflexivity | lia ].
Qed.

(** Stage-1 receives one slot per block, and the slot of each block holds
    the content of that block in the final Stage-2. *)
Lemma add_blocks_slots :
  forall (blocks : list (list Value)) (s1 : list nat)
         (s2 : list (list Value)),
    exists ids ext,
      fold_left (TST.add_block value_eqb) blocks (s1, s2)
      = (s1 ++ ids, s2 ++ ext)
      /\ List.length ids = List.length blocks
      /\ forall (i : nat) (c : list Value),
           nth_error blocks i = Some c ->
           exists j, nth_error ids i = Some j
                     /\ nth_error (s2 ++ ext) j = Some c.
Proof.
  induction blocks as [| c blocks IH]; intros s1 s2; simpl.
  - exists [], []. rewrite !app_nil_r. split; [ reflexivity | ].
    split; [ reflexivity | ]. intros [| i] c' Hc; discriminate.
  - destruct (add_block_slot s1 s2 c) as (j & ext & -> & Hj).
    destruct (IH (s1 ++ [j]) (s2 ++ ext)) as (ids & ext' & -> & Hlen & Hall).
    exists (j :: ids), (ext ++ ext').
    rewrite <- !app_assoc. split; [ reflexivity | ].
    split; [ simpl; now rewrite Hlen | ].
    intros [| i] c' Hc; simpl in Hc.
    + injection Hc as <-. exists j. split; [ reflexivity | ].
      rewrite app_assoc. rewrite nth_error_app1; [ exact Hj | ].
      apply nth_error_Some. rewrite Hj. discriminate.
    + destruct (Hall i c' Hc) as (j' & Hj' & Hc').
      exists j'. split; [ exact Hj' | ]. now rewrite app_assoc.
Qed.

Lemma nth_error_map_seq :
  forall (A : Type) (f : nat -> A) (n i : nat),
    (i < n)%nat -> nth_error (map f (seq 0 n)) i = Some (f i).
Proof.
  intros A f n i Hi. rewrite nth_error_map, nth_error_seq.
  destruct (Nat.ltb_spec i n); [ reflexivity | lia ].
Qed.

(** The lookup of a code point of the domain returns the value the patched
    mapping gives it. *)
Lemma lookup_construct :
  forall (data patch : list (CodePointRange * Value)) (default : Value)
         (bs cp : Z),
    0 < bs -> 0 <= cp < domain_size ->
    TST.lookup (TST.construct value_eqb domain_size data bs default patch) cp
    = Ok (TST.patched_value data patch default cp).
Proof.
  intros data patch default bs cp Hbs Hcp.
  unfold TST.construct, TST.lookup. simpl.
  set (blocks := map (TST.block_content domain_size data patch default bs)
                     (TST.block_indices domain_size bs)).
  destruct (add_blocks_slots blocks [] []) as (ids & ext & -> & Hlen & Hall).
  simpl.
  assert (Hq : 0 <= cp / bs) by (apply Z.div_pos; lia).
  assert (Hm : 0 <= cp mod bs < bs) by (apply Z.mod_pos_bound; lia).
  assert (Hcount : cp / bs < TST.block_count domain_size bs).
  { unfold TST.block_count.
    assert (Hd : bs * (cp / bs) <= cp) by (apply Z.mul_div_le; lia).
    assert (Hlow : cp / bs + 1 <= (domain_size + bs - 1) / bs)
      by (apply Z.div_le_lower_bound; lia).
    lia. }
  assert (Hblock : nth_error blocks (Z.to_nat (cp / bs))
                   = Some (TST.block_content domain_size data patch default
                             bs (cp / bs))).
  { unfold blocks, TST.block_indices. rewrite map_map.
    rewrite nth_error_map_seq by lia. now rewrite Z2Nat.id. }
  destruct (Hall _ _ Hblock) as (j & Hj & Hc). simpl in Hc.
  rewrite Hj, Hc. unfold TST.block_content.
  rewrite nth_error_map_seq by lia. rewrite Z2Nat.id by lia.
  assert (Ecp : cp / bs * bs + cp mod bs = cp)
    by (rewrite (Z.div_mod cp bs) at 3 by lia; lia).
  rewrite Ecp. destruct (Z.ltb_spec cp domain_size); [ reflexivity | lia ].
Qed.

(** In a valid mapping the first range that covers a code point is the
    only one. *)
Lemma range_value_covered :
  forall (m : list (CodePointRange * Value)) (cp : Z) (r : CodePointRange)
         (v : Value),
    valid_mapping m -> In (r, v) m -> covers r cp ->
    TST.range_value m cp = Some v.
Proof.
  intros m cp r v [_ Hs] Hin Hc. unfold covers in Hc.
  induction Hs as [| [r0 v0] m Hs IH Hall]; simpl in *; [ destruct Hin | ].
  destruct (contains r0 cp) eqn:E0.
  - destruct Hin as [Hin | Hin]; [ congruence | ].
    apply contains_spec in E0. rewrite Forall_forall in Hall.
    specialize (Hall _ Hin). simpl in Hall. lia.
  - destruct Hin as [Hin | Hin]; [ | now apply IH ].
    injection Hin as -> ->.
    assert (contains r cp = true) by (apply contains_spec; lia). congruence.
Qed.

Lemma range_value_uncovered :
  forall (m : list (CodePointRange * Value)) (cp : Z),
    (forall r v, In (r, v) m -> ~ covers r cp) ->
    TST.range_value m cp = None.
Proof.
  intros m cp. induction m as [| [r0 v0] m IH]; intros Hno; simpl.
  - reflexivity.
  - destruct (contains r0 cp) eqn:E0.
    + exfalso. apply (Hno r0 v0); [ now left | ]. now apply contains_spec.
    + apply IH. intros r v Hin. apply (Hno r v). now right.
Qed.

(** The first range of a list that covers a code point decides, whatever
    the order and the overlaps of the list. *)
Lemma range_value_first :
  forall (m1 m2 : list (CodePointRange * Value)) (cp : Z)
         (r : CodePointRange) (v : Value),
    (forall r' v', In (r', v') m1 -> ~ covers r' cp) ->
    covers r cp ->
    TST.range_value (m1 ++ (r, v) :: m2) cp = Some v.
Proof.
  intros m1 m2 cp r v. induction m1 as [| [r0 v0] m1 IH]; intros Hno Hc; simpl.
  - assert (E : contains r cp = true) by now apply contains_spec.
    now rewrite E.
  - destruct (contains r0 cp) eqn:E0.
    + exfalso. apply (Hno r0 v0); [ now left | ]. now apply contains_spec.
    + apply IH; [ | exact Hc ]. intros r' v' Hin. apply (Hno r' v'). now right.
Qed.

Lemma valid_well_ordered :
  forall m : list (CodePointRange * Value),
    valid_mapping m -> TST.well_ordered m = true.
Proof.
  intros m [Hr Hs]. induction Hs as [| [r v] m Hs IH Hall]; simpl.
  - reflexivity.
  - inversion Hr as [| ? ? Hrv Hr']; subst. simpl in Hrv.
    rewrite (IH Hr'), andb_true_r. apply andb_true_iff. split.
    + apply Z.leb_le. lia.
    + destruct m as [| [r' v'] m']; [ reflexivity | ].
      inversion Hall as [| ? ? Hlt _]; subst. simpl in Hlt.
      now apply Z.ltb_lt.
Qed.

(** The builder accepts a well-ordered mapping whose ranges, and those of
    the patch, are in the domain. *)
Lemma make_accepts :
  forall (data patch : list (CodePointRange * Value)) (default : Value)
         (bs : Z),
    TST.well_ordered data = true ->
    forallb (fun p => TST.in_domain domain_size (fst p)) (data ++ patch) = true ->
    TST.make value_eqb domain_size data bs default patch
    = Ok (TST.construct value_eqb domain_size data bs default patch).
Proof.
  intros data patch default bs Hw Hd. unfold TST.make.
  now rewrite Hw, Hd.
Qed.

End BuilderFacts.

Lemma valid_in_domain :
  forall (V : Type) (m : list (CodePointRange * V)),
    valid_mapping m ->
    forallb (fun p => TST.in_domain DOMAIN_SIZE (fst p)) m = true.
Proof.
  intros V m [Hr _]. apply forallb_forall. intros p Hp.
  rewrite Forall_forall in Hr. specialize (Hr p Hp). simpl in Hr.
  unfold TST.in_domain, DOMAIN_SIZE.
  repeat (apply andb_true_iff; split);
    first [ apply Z.leb_le | apply Z.ltb_lt ]; lia.
Qed.

Lemma outside_domain :
  forall (V : Type) (m : list (CodePointRange * V)),
    forallb (fun p => TST.in_domain DOMAIN_SIZE (fst p)) m = false ->
    exists r v, In (r, v) m /\ ~ code_point_range r.
Proof.
  intros V m. induction m as [| [r v] m IH]; simpl; intros E.
  - discriminate.
  - apply andb_false_iff in E. destruct E as [E | E].
    + exists r, v. split; [ now left | ]. intros [Hs He].
      unfold TST.in_domain, DOMAIN_SIZE in E.
      assert (Ht : (0 <=? start r) && (start r <? 1114112)
                   && (0 <=? end_ r) && (end_ r <? 1114112) = true).
      { repeat (apply andb_true_iff; split);
          first [ apply Z.leb_le | apply Z.ltb_lt ]; lia. }
      congruence.
    + destruct (IH E) as (r' & v' & Hin & Hn). exists r', v'.
      split; [ now right | exact Hn ].
Qed.

Lemma optstr_eqb_eq : forall a b : optstr, optstr_eqb a b = true <-> a = b.
Proof.
  intros [a |] [b |]; simpl; try (split; discriminate); [ | tauto ].
  rewrite String.eqb_eq. split; [ now intros -> | now intros [= ->] ].
Qed.

(** C2: for a valid Range Mapping, any optional Patch Set (no order is
    asked of it), a Default Value and a candidate block size, the builder
    refuses only a patch with a range outside the domain
    ([DomainOverflowError]); on the table it builds, the lookup
    [Stage-2[Stage-1[cp div block_size]][cp mod block_size]] of a code point
    [cp] of [0, 0x10FFFF] returns the value of the first patch range that
    covers [cp]; when no patch range covers it, the value of the mapping
    range that covers it; and the Default Value when no range covers it. *)
Theorem lookup_coverage_complete :
  forall (data : range_data) (default : optstr) (missing : option Missing)
         (bs cp : Z),
    In bs [64; 128; 256; 512] ->
    0 <= cp <= 0x10FFFF ->
    valid_mapping data ->
    match TST.make optstr_eqb DOMAIN_SIZE data bs default (patch_of missing)
    with
    | Ok t =>
        (forall p1 r v p2,
            patch_of missing = p1 ++ (r, v) :: p2 ->
            (forall r' v', In (r', v') p1 -> ~ covers r' cp) ->
            covers r cp ->
            TST.lookup t cp = Ok v)
        /\ (forall r v,
              (forall r' v', In (r', v') (patch_of missing) -> ~ covers r' cp) ->
              In (r, v) data -> covers r cp ->
              TST.lookup t cp = Ok v)
        /\ ((forall r' v', In (r', v') (patch_of missing ++ data) ->
                           ~ covers r' cp) ->
            TST.lookup t cp = Ok default)
    | Raise e =>
        e = DomainOverflowError
        /\ exists r v, In (r, v) (patch_of missing) /\ ~ code_point_range r
    end.
Proof.
  intros data default missing bs cp Hbs Hcp Hdata.
  unfold TST.make. rewrite (valid_well_ordered data Hdata). cbn [negb].
  rewrite forallb_app, (valid_in_domain _ data Hdata). cbn [andb].
  destruct (forallb _ (patch_of missing)) eqn:Ep; cbn [negb].
  - assert (Hlook : TST.lookup
                      (TST.construct optstr_eqb DOMAIN_SIZE data bs default
                                     (patch_of missing)) cp
                    = Ok (TST.patched_value data (patch_of missing) default cp)).
    { apply (lookup_construct optstr_eqb optstr_eqb_eq).
      - simpl in Hbs. lia.
      - unfold DOMAIN_SIZE. lia. }
    rewrite Hlook. unfold TST.patched_value. repeat split.
    + intros p1 r v p2 -> Hno Hc.
      now rewrite (range_value_first p1 p2 cp r v Hno Hc).
    + intros r v Hno Hin Hc.
      rewrite (range_value_uncovered _ cp Hno).
      now rewrite (range_value_covered _ cp r v Hdata Hin Hc).
    + intros Hno.
      rewrite (range_value_uncovered (patch_of missing) cp),
              (range_value_uncovered data cp); [ reflexivity | | ];
        intros r v Hin; apply (Hno r v); apply in_or_app; auto.
  - split; [ reflexivity | ]. now apply outside_domain.
Qed.

Lemma lookup_coverage_complete_witness :
  TST.make optstr_eqb DOMAIN_SIZE sample_bc_data 64 (Some "L"%string)
           sample_bc_missing
  = Ok (TST.construct optstr_eqb DOMAIN_SIZE sample_bc_data 64
          (Some "L"%string) sample_bc_missing)
  /\ TST.lookup (TST.construct optstr_eqb DOMAIN_SIZE sample_bc_data 64
                   (Some "L"%string) sample_bc_missing) 0x5D0
     = Ok (Some "R"%string).
Proof.
  assert (Hmake : TST.make optstr_eqb DOMAIN_SIZE sample_bc_data 64
                           (Some "L"%string) sample_bc_missing
                  = Ok (TST.construct optstr_eqb DOMAIN_SIZE sample_bc_data 64
                          (Some "L"%string) sample_bc_missing)).
  { apply make_accepts; reflexivity. }
  split; [ exact Hmake | ].
  pose proof (lookup_coverage_complete sample_bc_data (Some "L"%string)
                (Some sample_bc_missing) 64 0x5D0
                ltac:(simpl; tauto) ltac:(lia)
                ltac:(split; repeat constructor; simpl; lia)) as H.
  cbn [patch_of] in H. rewrite Hmake in H. destruct H as [Hpatch _].
  apply (Hpatch [(mkRange 0x600 0x7BF, Some "AL"%string)]
                (mkRange 0x590 0x5FF) (Some "R"%string) []).
  - reflexivity.
  - intros r' v' [Hin | []]. injection Hin as <- _.
    unfold covers. simpl. lia.
  - unfold covers. simpl. lia.
Defined.

(** * Further properties of the tool *)

(** ** Reverse lookups *)

Lemma find_key_by_value_In :
  forall (d : dict string string) (val k : string),
    find_key_by_value d val = Some k -> In (k, val) d.
Proof.
  induction d as [| [k' v] d IH]; intros val k E; simpl in E.
  - discriminate.
  - destruct (String.eqb_spec v val) as [-> | Hne].
    + injection E as <-. now left.
    + right. now apply IH.
Qed.

(** X1: on a table whose values are pairwise distinct,
    [find_key_by_value] inverts the table: it answers [k] for [v] exactly
    when the table maps [k] to [v]. *)
Theorem find_key_by_value_inverts :
  forall (d : dict string string) (k v : string),
    NoDup (values d) ->
    (find_key_by_value d v = Some k <-> In (k, v) d).
Proof.
  intros d k v Hnd. split; [ apply find_key_by_value_In | ].
  unfold values in Hnd.
  induction d as [| [k' v'] d IH]; simpl; intros Hin; [ destruct Hin | ].
  inversion Hnd as [| ? ? Hnot Hnd']; subst.
  destruct (String.eqb_spec v' v) as [-> | Hne].
  - destruct Hin as [Hin | Hin]; [ congruence | ].
    exfalso. apply Hnot. change v with (snd (k, v)). now apply in_map.
  - destruct Hin as [Hin | Hin]; [ congruence | now apply IH ].
Qed.

Lemma find_key_by_value_inverts_witness :
  find_key_by_value [("Grek", "Greek"); ("Latn", "Latin")]%string "Latin"
  = Some "Latn"%string
  <-> In ("Latn", "Latin")%string [("Grek", "Greek"); ("Latn", "Latin")]%string.
Proof.
  apply (find_key_by_value_inverts
           [("Grek", "Greek"); ("Latn", "Latin")]%string "Latn" "Latin").
  repeat constructor; simpl; intuition discriminate.
Defined.

Lemma replace_delims_comm :
  forall s : string,
    replace_char "-" " " (replace_char "_" " " s)
    = replace_char "_" " " (replace_char "-" " " s).
Proof.
  induction s as [| c s IH]; simpl; [ reflexivity | ].
  rewrite IH. f_equal.
  destruct (Ascii.eqb_spec c "_") as [-> | H1]; [ reflexivity | ].
  destruct (Ascii.eqb_spec c "-") as [-> | H2]; [ reflexivity | ].
  destruct (Ascii.eqb_spec c "-"); [ contradiction | ].
  destruct (Ascii.eqb_spec c "_"); [ contradiction | reflexivity ].
Qed.

Lemma find_key_by_value_ci_step :
  forall (d : dict string string) (k v val : string),
    find_key_by_value_ci ((k, v) :: d) val
    = if String.eqb (ci_form val) (ci_form v) then Some k
      else find_key_by_value_ci d val.
Proof.
  intros d k v val. simpl. unfold ci_form.
  now rewrite replace_delims_comm.
Qed.

(** ** PascalCase *)

Lemma title_char_free_underscore :
  forall (s : string) (b : bool),
    char_free "_" (title_from b s) = char_free "_" s.
Proof.
  induction s as [| c s IH]; intros b; simpl; [ reflexivity | ].
  destruct (is_alpha c) eqn:Ea; simpl; rewrite IH; [ | reflexivity ].
  f_equal. f_equal. clear IH.
  destruct b; destruct c as [[] [] [] [] [] [] [] []];
    try reflexivity; discriminate Ea.
Qed.

Lemma split_char_free :
  forall (sep : ascii) (s : string),
    Forall (fun w => char_free sep w = true) (split_char sep s).
Proof.
  intros sep s. induction s as [| c s IH]; simpl.
  - repeat constructor.
  - destruct (Ascii.eqb c sep) eqn:Ec.
    + constructor; [ reflexivity | exact IH ].
    + destruct (split_char sep s) as [| w ws].
      * constructor; [ simpl; now rewrite Ec | constructor ].
      * inversion IH; subst. constructor; [ | assumption ].
        simpl. rewrite Ec. simpl. assumption.
Qed.

Lemma char_free_app :
  forall (c : ascii) (a b : string),
    char_free c (a ++ b) = char_free c a && char_free c b.
Proof.
  intros c a b. induction a as [| x a IH]; simpl; [ reflexivity | ].
  now rewrite IH, andb_assoc.
Qed.

Lemma char_free_join :
  forall (c : ascii) (ws : list string),
    Forall (fun w => char_free c w = true) ws -> char_free c (join ws) = true.
Proof.
  intros c ws H. induction H as [| w ws Hw _ IH]; simpl; [ reflexivity | ].
  now rewrite char_free_app, Hw, IH.
Qed.

Lemma pascal_char_free :
  forall s : string,
    char_free "_" (join (map title (split_char "_" s))) = true.
Proof.
  intros s. apply char_free_join. apply Forall_map.
  eapply Forall_impl; [ | apply (split_char_free "_" s) ].
  intros w Hw. unfold title. now rewrite title_char_free_underscore.
Qed.

(** X4: whatever the key, the name [to_pascal_case] makes of it holds no
    underscore. *)
Theorem to_pascal_case_no_underscore :
  forall s : string,
    exists r, to_pascal_case (Some s) = Ok r /\ char_free "_" r = true.
Proof.
  intros s. eexists. split; [ reflexivity | ]. apply pascal_char_free.
Qed.

(** ** Loops that convert entry by entry *)

Section MapLoop.
Context {A B : Type}.
Variable body : list B -> A -> result (list B).
Variable g : A -> result B.
Hypothesis body_g :
  forall acc x, body acc x = bind (g x) (fun y => Ok (acc ++ [y])).

Lemma for_each_map_acc :
  forall (xs : list A) (acc out : list B),
    for_each body xs acc = Ok out <->
    exists ys, Forall2 (fun x y => g x = Ok y) xs ys /\ out = acc ++ ys.
Proof.
  induction xs as [| x xs IH]; intros acc out; simpl.
  - split.
    + intros [= <-]. exists []. split; [ constructor | now rewrite app_nil_r ].
    + intros (ys & HF & ->). inversion HF; subst. now rewrite app_nil_r.
  - rewrite body_g. destruct (g x) as [y | e] eqn:Eg; simpl.
    + rewrite IH. split.
      * intros (ys & HF & ->). exists (y :: ys).
        split; [ now constructor | now rewrite <- app_assoc ].
      * intros (ys & HF & ->). inversion HF as [| ? y' ? ys' Hy HF']; subst.
        rewrite Eg in Hy. injection Hy as <-.
        exists ys'. split; [ assumption | now rewrite <- app_assoc ].
    + split; [ discriminate | ].
      intros (ys & HF & _). inversion HF as [| ? y' ? ys' Hy HF']; subst.
      rewrite Eg in Hy. discriminate.
Qed.

Lemma for_each_map_ok :
  forall (xs : list A) (out : list B),
    for_each body xs [] = Ok out <-> Forall2 (fun x y => g x = Ok y) xs out.
Proof.
  intros xs out. rewrite for_each_map_acc. simpl. split.
  - intros (ys & HF & ->). exact HF.
  - intros HF. exists out. auto.
Qed.

Lemma for_each_map_raise :
  forall (xs : list A) (acc : list B) (e : exn),
    for_each body xs acc = Raise e -> exists x, In x xs /\ g x = Raise e.
Proof.
  induction xs as [| x xs IH]; intros acc e E; simpl in E; [ discriminate | ].
  rewrite body_g in E. destruct (g x) as [y | e'] eqn:Eg; simpl in E.
  - destruct (IH _ _ E) as (x' & Hin & Hx'). exists x'. split; [ now right | auto ].
  - injection E as <-. exists x. split; [ now left | exact Eg ].
Qed.

End MapLoop.

Lemma Forall2_same_fst :
  forall (R V W : Type) (xs : list (R * V)) (ys : list (R * W)),
    Forall2 (fun x y => fst y = fst x) xs ys -> map fst ys = map fst xs.
Proof.
  intros R V W xs ys HF. induction HF as [| x y xs ys Hxy HF IH]; simpl.
  - reflexivity.
  - now rewrite Hxy, IH.
Qed.

Lemma getitem_Ok :
  forall (K V : Type) (kk : Key K) (d : dict K V) (k : K) (v : V),
    getitem d k = Ok v -> In (k, v) d.
Proof.
  intros K V kk d k v. induction d as [| [k' v'] d IH]; simpl; intros E.
  - discriminate.
  - destruct (key_eqb k' k) eqn:Ek.
    + apply key_eqb_eq in Ek. subst. injection E as <-. now left.
    + right. now apply IH.
Qed.

Lemma getitem_Raise :
  forall (K V : Type) (kk : Key K) (d : dict K V) (k : K) (e : exn),
    getitem d k = Raise e -> e = KeyError /\ ~ In k (keys d).
Proof.
  intros K V kk d k e. induction d as [| [k' v'] d IH]; simpl; intros E.
  - injection E as <-. tauto.
  - destruct (key_eqb k' k) eqn:Ek; [ discriminate | ].
    destruct (IH E) as [-> Hn]. split; [ reflexivity | ].
    intros [-> | Hin]; [ | now apply Hn ].
    assert (Ht : key_eqb k k = true) by now apply key_eqb_eq.
    congruence.
Qed.

Lemma getitem_In_keys :
  forall (K V : Type) (kk : Key K) (d : dict K V) (k : K),
    In k (keys d) -> exists v, getitem d k = Ok v.
Proof.
  intros K V kk d k Hin. destruct (getitem d k) as [v | e] eqn:E.
  - now exists v.
  - apply getitem_Raise in E. tauto.
Qed.

(** ** The converters *)

(** X5: [data_value_as_abbr] raises only a [KeyError], and only when the
    property has no alias table; otherwise it returns one pair per pair of
    its input, with the same ranges in the same order. *)
Theorem data_value_as_abbr_keeps_ranges :
  forall (pva : dict string (dict string string))
         (data : list (CodePointRange * string)) (prop : string),
    match data_value_as_abbr pva data prop with
    | Ok out => In prop (keys pva) /\ map fst out = map fst data
    | Raise e => e = KeyError /\ ~ In prop (keys pva)
    end.
Proof.
  intros pva data prop.
  destruct (getitem pva prop) as [aliases | e] eqn:Eg.
  - rewrite (data_value_as_abbr_total pva data prop aliases Eg). split.
    + apply getitem_Ok in Eg. change prop with (fst (prop, aliases)).
      unfold keys. now apply in_map.
    + rewrite map_map. reflexivity.
  - unfold data_value_as_abbr. rewrite Eg. simpl.
    now apply getitem_Raise in Eg.
Qed.

Lemma ccc_body :
  forall (aliases : dict string string) (acc : list (CodePointRange * string))
         (pair : CodePointRange * string),
    (abbr <- getitem aliases (snd pair) ;; Ok (acc ++ [(fst pair, abbr)]))
    = bind (bind (getitem aliases (snd pair)) (fun abbr => Ok (fst pair, abbr)))
           (fun y => Ok (acc ++ [y])).
Proof. intros aliases acc pair. now destruct (getitem aliases (snd pair)). Qed.

(** X6: once the [ccc] table is loaded, [data_value_as_abbr_ccc] either
    returns the list in which every token is replaced by the value the table
    holds under it, ranges unchanged, or raises a [KeyError] because some
    token of the data is not a key of the table. *)
Theorem data_value_as_abbr_ccc_strict :
  forall (pva : dict string (dict string string))
         (aliases : dict string string)
         (data : list (CodePointRange * string)),
    getitem pva "ccc"%string = Ok aliases ->
    match data_value_as_abbr_ccc pva data with
    | Ok out =>
        Forall2 (fun p q => fst q = fst p /\ In (snd p, snd q) aliases) data out
    | Raise e =>
        e = KeyError
        /\ exists p, In p data /\ ~ In (snd p) (keys aliases)
    end.
Proof.
  intros pva aliases data Hget. unfold data_value_as_abbr_ccc.
  rewrite Hget. simpl bind.
  destruct (for_each _ data []) as [out | e] eqn:E.
  - apply (for_each_map_ok _ _ (ccc_body aliases)) in E.
    eapply Forall2_impl; [ | exact E ]. intros p q Hpq. simpl in Hpq.
    destruct (getitem aliases (snd p)) as [abbr | e'] eqn:Ea; simpl in Hpq;
      [ | discriminate ].
    injection Hpq as <-. simpl. split; [ reflexivity | ].
    now apply getitem_Ok in Ea.
  - apply (for_each_map_raise _ _ (ccc_body aliases)) in E.
    destruct E as (p & Hin & Hp).
    destruct (getitem aliases (snd p)) as [abbr | e'] eqn:Ea; simpl in Hp;
      [ discriminate | ].
    injection Hp as <-. apply getitem_Raise in Ea. destruct Ea as [-> Hn].
    split; [ reflexivity | ]. exists p. auto.
Qed.

Lemma data_value_as_abbr_ccc_strict_witness :
  Forall2 (fun p q => fst q = fst p
                      /\ In (snd p, snd q) [("0", "NR"); ("230", "A")]%string)
          [(mkRange 0x300 0x314, "230"%string)]
          [(mkRange 0x300 0x314, "A"%string)].
Proof.
  apply (data_value_as_abbr_ccc_strict
           [("ccc", [("0", "NR"); ("230", "A")])]%string
           [("0", "NR"); ("230", "A")]%string
           [(mkRange 0x300 0x314, "230"%string)]).
  reflexivity.
Defined.

Lemma blk_body :
  forall (aliases : dict string string) (acc : list (CodePointRange * string))
         (pair : CodePointRange * string),
    (let value := replace_char " " "_" (snd pair) in
     let value := replace_char "-" "_" value in
     let key := find_key_by_value_ci aliases value in
     abbr <- to_pascal_case key ;; Ok (acc ++ [(fst pair, abbr)]))
    = bind (bind (to_pascal_case
                    (find_key_by_value_ci aliases
                       (replace_char "-" "_" (replace_char " " "_" (snd pair)))))
                 (fun abbr => Ok (fst pair, abbr)))
           (fun y => Ok (acc ++ [y])).
Proof.
  intros aliases acc pair. cbv zeta.
  now destruct (to_pascal_case _).
Qed.

Lemma split_char_nonempty :
  forall (sep : ascii) (s : string), split_char sep s <> [].
Proof.
  intros sep s. destruct s as [| c s]; simpl; [ discriminate | ].
  destruct (Ascii.eqb c sep); [ discriminate | ].
  destruct (split_char sep s); discriminate.
Qed.

Lemma split_char_single :
  forall (sep : ascii) (s w : string),
    split_char sep s = [w] -> char_free sep s = true.
Proof.
  intros sep s. induction s as [| c s IH]; intros w E; simpl in *.
  - reflexivity.
  - destruct (Ascii.eqb c sep) eqn:Ec.
    + injection E as _ E. now apply split_char_nonempty in E.
    + destruct (split_char sep s) as [| w' ws] eqn:Es.
      * now apply split_char_nonempty in Es.
      * injection E as _ ->. simpl. now apply (IH w').
Qed.

Lemma age_body :
  forall (acc : list (CodePointRange * string))
         (pair : CodePointRange * string),
    (let ver := split_char "." (snd pair) in
     major <- index ver 0 ;;
     minor <- index ver 1 ;;
     Ok (acc ++ [(fst pair, ("V" ++ major ++ "_" ++ minor)%string)]))
    = bind (major <- index (split_char "." (snd pair)) 0 ;;
            minor <- index (split_char "." (snd pair)) 1 ;;
            Ok (fst pair, ("V" ++ major ++ "_" ++ minor)%string))
           (fun y => Ok (acc ++ [y])).
Proof.
  intros acc pair. cbv zeta.
  destruct (index _ 0); simpl; [ | reflexivity ].
  now destruct (index _ 1).
Qed.

(** X8: [to_age_data] either returns, for every pair, the same range with
    ["V" major "_" minor] made of the first two dot-separated fields of the
    version (further fields are dropped), or raises an [IndexError] because
    some version of the data holds no dot. *)
Theorem to_age_data_versions :
  forall data : list (CodePointRange * string),
    match to_age_data data with
    | Ok out =>
        Forall2
          (fun p q =>
             fst q = fst p
             /\ exists major minor rest,
                  split_char "." (snd p) = major :: minor :: rest
                  /\ snd q = ("V" ++ major ++ "_" ++ minor)%string)
          data out
    | Raise e =>
        e = IndexError
        /\ exists p, In p data /\ char_free "." (snd p) = true
    end.
Proof.
  intros data. unfold to_age_data.
  destruct (for_each _ data []) as [out | e] eqn:E.
  - apply (for_each_map_ok _ _ age_body) in E.
    eapply Forall2_impl; [ | exact E ]. intros p q Hpq. simpl in Hpq.
    destruct (split_char "." (snd p)) as [| major [| minor rest]];
      simpl in Hpq; try discriminate.
    injection Hpq as <-. simpl. split; [ reflexivity | ].
    exists major, minor, rest. auto.
  - apply (for_each_map_raise _ _ age_body) in E.
    destruct E as (p & Hin & Hp).
    destruct (split_char "." (snd p)) as [| major [| minor rest]] eqn:Es;
      simpl in Hp; try discriminate.
    + now apply split_char_nonempty in Es.
    + injection Hp as <-. split; [ reflexivity | ]. exists p.
      split; [ exact Hin | ]. now apply (split_char_single _ _ major).
Qed.

(** ** What the converters hand to the selector *)

Lemma StronglySorted_map :
  forall (A B : Type) (R : B -> B -> Prop) (f : A -> B) (l : list A),
    StronglySorted (fun a b => R (f a) (f b)) l <-> StronglySorted R (map f l).
Proof.
  intros A B R f l. induction l as [| x l IH]; simpl.
  - split; constructor.
  - split; intros Hs; inversion Hs as [| ? ? Hs' Hall]; subst; constructor.
    + now apply IH.
    + rewrite Forall_map. exact Hall.
    + now apply IH.
    + rewrite Forall_map in Hall. exact Hall.
Qed.

Lemma by_start_transfer :
  forall (V W : Type) (data : list (CodePointRange * V))
         (out : list (CodePointRange * W)),
    map fst out = map fst data ->
    StronglySorted by_start data -> StronglySorted by_start out.
Proof.
  intros V W data out E Hs. unfold by_start in *.
  apply (StronglySorted_map _ _ (fun a b => start a <= start b) fst).
  rewrite E.
  now apply (StronglySorted_map _ _ (fun a b => start a <= start b) fst).
Qed.

Lemma relabel_keeps_ranges :
  forall (V W : Type) (h : CodePointRange * V -> result W)
         (data : list (CodePointRange * V)) (out : list (CodePointRange * W)),
    Forall2 (fun p q => bind (h p) (fun w => Ok (fst p, w)) = Ok q) data out ->
    map fst out = map fst data.
Proof.
  intros V W h data out HF. apply Forall2_same_fst.
  eapply Forall2_impl; [ | exact HF ]. intros p q Hpq. simpl in Hpq.
  destruct (h p); simpl in Hpq; [ | discriminate ]. now injection Hpq as <-.
Qed.

Lemma ccc_keeps_ranges :
  forall (pva : dict string (dict string string))
         (data out : list (CodePointRange * string)),
    data_value_as_abbr_ccc pva data = Ok out -> map fst out = map fst data.
Proof.
  intros pva data out E. unfold data_value_as_abbr_ccc in E.
  destruct (getitem pva "ccc"%string) as [aliases | e]; simpl in E;
    [ | discriminate ].
  apply (for_each_map_ok _ _ (ccc_body aliases)) in E.
  now apply (relabel_keeps_ranges _ _ (fun p => getitem aliases (snd p))).
Qed.

Lemma blk_keeps_ranges :
  forall (pva : dict string (dict string string))
         (data out : list (CodePointRange * string)),
    data_value_as_abbr_blk pva data = Ok out -> map fst out = map fst data.
Proof.
  intros pva data out E. unfold data_value_as_abbr_blk in E.
  destruct (getitem pva "blk"%string) as [aliases | e]; simpl in E;
    [ | discriminate ].
  apply (for_each_map_ok _ _ (blk_body aliases)) in E.
  now apply (relabel_keeps_ranges _ _
               (fun p => to_pascal_case
                           (find_key_by_value_ci aliases
                              (replace_char "-" "_"
                                 (replace_char " " "_" (snd p)))))).
Qed.

Lemma age_keeps_ranges :
  forall data out : list (CodePointRange * string),
    to_age_data data = Ok out -> map fst out = map fst data.
Proof.
  intros data out E. unfold to_age_data in E.
  apply (for_each_map_ok _ _ age_body) in E.
  apply Forall2_same_fst.
  eapply Forall2_impl; [ | exact E ]. intros p q Hpq. simpl in Hpq.
  destruct (index _ 0); simpl in Hpq; [ | discriminate ].
  destruct (index _ 1); simpl in Hpq; [ | discriminate ].
  now injection Hpq as <-.
Qed.

(** X9: whichever converter [__main__] runs on the list [make_data]
    returned ([data_value_as_abbr], [data_value_as_abbr_ccc],
    [data_value_as_abbr_blk] or [to_age_data]), the list it returns is still
    sorted ascending by range start. *)
Theorem converted_data_sorted :
  forall (d : dict string string) (data : list (CodePointRange * string))
         (pva : dict string (dict string string)) (prop : string),
    make_data d = Ok data ->
    (forall out, data_value_as_abbr pva data prop = Ok out ->
                 StronglySorted by_start out)
    /\ (forall out, data_value_as_abbr_ccc pva data = Ok out ->
                    StronglySorted by_start out)
    /\ (forall out, data_value_as_abbr_blk pva data = Ok out ->
                    StronglySorted by_start out)
    /\ (forall out, to_age_data data = Ok out -> StronglySorted by_start out).
Proof.
  intros d data pva prop Hd. apply make_data_sorted in Hd.
  repeat split; intros out E; refine (by_start_transfer _ _ data out _ Hd).
  - unfold data_value_as_abbr in E.
    destruct (getitem pva prop) as [aliases | e]; simpl in E; [ | discriminate ].
    injection E as <-. rewrite abbr_loop_app. simpl. now rewrite map_map.
  - now apply (ccc_keeps_ranges pva).
  - now apply (blk_keeps_ranges pva).
  - now apply age_keeps_ranges.
Qed.

Lemma converted_data_sorted_witness :
  (forall out,
      data_value_as_abbr [("sc", [("Latn", "Latin"); ("Grek", "Greek")])]%string
        [ (mkRange 0x41 0x5A, "Latin"); (mkRange 0x370 0x373, "Greek") ]%string
        "sc" = Ok out ->
      StronglySorted by_start out)
  /\ (forall out,
        data_value_as_abbr_ccc
          [("sc", [("Latn", "Latin"); ("Grek", "Greek")])]%string
          [ (mkRange 0x41 0x5A, "Latin"); (mkRange 0x370 0x373, "Greek") ]%string
        = Ok out ->
        StronglySorted by_start out)
  /\ (forall out,
        data_value_as_abbr_blk
          [("sc", [("Latn", "Latin"); ("Grek", "Greek")])]%string
          [ (mkRange 0x41 0x5A, "Latin"); (mkRange 0x370 0x373, "Greek") ]%string
        = Ok out ->
        StronglySorted by_start out)
  /\ (forall out,
        to_age_data
          [ (mkRange 0x41 0x5A, "Latin"); (mkRange 0x370 0x373, "Greek") ]%string
        = Ok out ->
        StronglySorted by_start out).
Proof.
  apply (converted_data_sorted
           [ ("0370..0373", "Greek"); ("0041..005A", "Latin") ]%string
           [ (mkRange 0x41 0x5A, "Latin"); (mkRange 0x370 0x373, "Greek") ]%string
           [("sc", [("Latn", "Latin"); ("Grek", "Greek")])]%string "sc").
  reflexivity.
Defined.

(** ** Ingestion, continued *)

Lemma make_data_body :
  forall (acc : list (CodePointRange * string)) (kv : string * string),
    (cp_range <- parse (fst kv) ;; Ok (acc ++ [(cp_range, snd kv)]))
    = bind (bind (parse (fst kv)) (fun r => Ok (r, snd kv)))
           (fun y => Ok (acc ++ [y])).
Proof. intros acc kv. now destruct (parse (fst kv)). Qed.

(** X10: [make_data] raises exactly what [CodePointRange.parse] raises on
    some key of the file; otherwise it returns a rearrangement of the
    entries of the file, each key read as a range and each value kept. *)
Theorem make_data_rearranges :
  forall d : dict string string,
    match make_data d with
    | Ok data =>
        exists parsed,
          Forall2 (fun kv pr => parse (fst kv) = Ok (fst pr) /\ snd pr = snd kv)
                  d parsed
          /\ Permutation data parsed
    | Raise e => exists kv, In kv d /\ parse (fst kv) = Raise e
    end.
Proof.
  intros d. unfold make_data.
  destruct (for_each _ d []) as [l | e] eqn:E; simpl bind.
  - apply (for_each_map_ok _ _ make_data_body) in E.
    exists l. split; [ | apply (sorted_perm fst range_ltb) ].
    eapply Forall2_impl; [ | exact E ]. intros kv pr H. simpl in H.
    destruct (parse (fst kv)) as [r | e]; simpl in H; [ | discriminate ].
    injection H as <-. auto.
  - apply (for_each_map_raise _ _ make_data_body) in E.
    destruct E as (kv & Hin & H). exists kv. split; [ exact Hin | ].
    destruct (parse (fst kv)); simpl in H; [ discriminate | ].
    now injection H as <-.
Qed.

Lemma setitem_fresh :
  forall (K V : Type) (kk : Key K) (d : dict K V) (k : K) (v : V),
    ~ In k (keys d) -> setitem d k v = d ++ [(k, v)].
Proof.
  intros K V kk d k v. induction d as [| [k' v'] d IH]; simpl; intros Hn.
  - reflexivity.
  - destruct (key_eqb k' k) eqn:Ek.
    + apply key_eqb_eq in Ek. subst. tauto.
    + rewrite IH; [ reflexivity | tauto ].
Qed.

Lemma setitem_last :
  forall (K V : Type) (kk : Key K) (d : dict K V) (k : K) (v v' : V),
    ~ In k (keys d) -> setitem (d ++ [(k, v)]) k v' = d ++ [(k, v')].
Proof.
  intros K V kk d k v v'. induction d as [| [k0 v0] d IH]; simpl; intros Hn.
  - assert (Ht : key_eqb k k = true) by now apply key_eqb_eq.
    now rewrite Ht.
  - destruct (key_eqb k0 k) eqn:Ek.
    + apply key_eqb_eq in Ek. subst. tauto.
    + rewrite IH; [ reflexivity | tauto ].
Qed.

Lemma grouped_inner_body :
  forall (acc : list (CodePointRange * string)) (rng : string),
    (r <- parse rng ;; Ok (acc ++ [(r, "true"%string)]))
    = bind (bind (parse rng) (fun r => Ok (r, "true"%string)))
           (fun y => Ok (acc ++ [y])).
Proof. intros acc rng. now destruct (parse rng). Qed.

Lemma grouped_inner :
  forall (rs : list string) (lst : list (CodePointRange * string)),
    for_each (fun lst rng => rng <- parse rng ;; Ok (lst ++ [(rng, "true"%string)]))
             rs [] = Ok lst ->
    List.length lst = List.length rs
    /\ Forall (fun p => snd p = "true"%string) lst.
Proof.
  intros rs lst E. apply (for_each_map_ok _ _ grouped_inner_body) in E.
  induction E as [| r p rs lst Hrp HF [IHl IHt]]; simpl.
  - split; [ reflexivity | constructor ].
  - split; [ now rewrite IHl | ]. constructor; [ | exact IHt ].
    destruct (parse r); simpl in Hrp; [ | discriminate ].
    now injection Hrp as <-.
Qed.

Lemma grouped_loop :
  forall (d : dict string (list string))
         (acc out : dict string (list (CodePointRange * string))),
    NoDup (keys acc ++ keys d) ->
    for_each
      (fun data_dict pr =>
         let data_dict := setitem data_dict (fst pr) [] in
         lst <- for_each
                  (fun lst rng =>
                     rng <- parse rng ;; Ok (lst ++ [(rng, "true"%string)]))
                  (snd pr) [] ;;
         Ok (setitem data_dict (fst pr) (sorted fst range_ltb lst)))
      d acc = Ok out ->
    exists new,
      out = acc ++ new
      /\ Forall2 (fun pr kl =>
                    fst kl = fst pr
                    /\ List.length (snd kl) = List.length (snd pr)
                    /\ Forall (fun p => snd p = "true"%string) (snd kl))
                 d new.
Proof.
  induction d as [| [k rs] d IH]; intros acc out Hnd E; simpl in E.
  - injection E as <-. exists []. split; [ now rewrite app_nil_r | constructor ].
  - destruct (for_each _ rs []) as [lst | e] eqn:El; simpl in E;
      [ | discriminate ].
    assert (Hk : ~ In k (keys acc)).
    { intros Hin. simpl in Hnd. apply NoDup_remove_2 in Hnd. apply Hnd.
      apply in_or_app. now left. }
    rewrite (setitem_fresh _ _ _ acc k [] Hk) in E.
    rewrite (setitem_last _ _ _ acc k [] _ Hk) in E.
    apply IH in E.
    + destruct E as (new & -> & HF).
      exists ((k, sorted fst range_ltb lst) :: new).
      split; [ now rewrite <- app_assoc | ].
      constructor; [ | exact HF ]. simpl.
      destruct (grouped_inner rs lst El) as [Hlen Htrue].
      split; [ reflexivity | ]. split.
      * now rewrite (Permutation_length (sorted_perm fst range_ltb lst)).
      * eapply Permutation_Forall;
          [ apply Permutation_sym, (sorted_perm fst range_ltb) | exact Htrue ].
    + unfold keys in *. rewrite map_app. simpl. rewrite <- app_assoc. exact Hnd.
Qed.

(** X11: on a file whose property names are distinct, [make_grouped_data]
    returns a dict with the same keys in the same order; the list of a
    property has one pair per range of the file, and every pair holds the
    value ["true"]. *)
Theorem make_grouped_data_shape :
  forall (d : dict string (list string))
         (data_dict : dict string (list (CodePointRange * string))),
    NoDup (keys d) ->
    make_grouped_data d = Ok data_dict ->
    keys data_dict = keys d
    /\ Forall2 (fun pr kl =>
                  List.length (snd kl) = List.length (snd pr)
                  /\ Forall (fun p => snd p = "true"%string) (snd kl))
               d data_dict.
Proof.
  intros d data_dict Hnd E. unfold make_grouped_data in E.
  apply grouped_loop in E; [ | exact Hnd ].
  destruct E as (new & -> & HF). simpl. split.
  - unfold keys. symmetry. apply Forall2_same_fst.
    eapply Forall2_flip, Forall2_impl; [ | exact HF ].
    intros pr kl (Hk & _). now symmetry.
  - eapply Forall2_impl; [ | exact HF ]. intros pr kl (_ & Hl & Ht). auto.
Qed.

Lemma make_grouped_data_shape_witness :
  keys [ ("Emoji", [ (mkRange 0x23 0x23, "true"); (mkRange 0x30 0x39, "true") ]);
         ("Emoji_Presentation", [ (mkRange 0x231A 0x231B, "true") ]) ]%string
  = keys [ ("Emoji", ["0030..0039"; "0023"]);
           ("Emoji_Presentation", ["231A..231B"]) ]%string
  /\ Forall2 (fun pr kl =>
                List.length (snd kl) = List.length (snd pr)
                /\ Forall (fun p => snd p = "true"%string) (snd kl))
       [ ("Emoji", ["0030..0039"; "0023"]);
         ("Emoji_Presentation", ["231A..231B"]) ]%string
       [ ("Emoji", [ (mkRange 0x23 0x23, "true"); (mkRange 0x30 0x39, "true") ]);
         ("Emoji_Presentation", [ (mkRange 0x231A 0x231B, "true") ]) ]%string.
Proof.
  apply (make_grouped_data_shape
           [ ("Emoji", ["0030..0039"; "0023"]);
             ("Emoji_Presentation", ["231A..231B"]) ]%string).
  - repeat constructor; simpl; intuition discriminate.
  - reflexivity.
Defined.

Lemma patch_body :
  forall (pva : dict string (dict string string)) (alias_key : string)
         (acc : Missing) (kv : string * string),
    (aliases <- getitem pva alias_key ;;
     let alias := find_key_by_value aliases (snd kv) in
     cp_range <- parse (fst kv) ;;
     Ok (Missing_append acc cp_range alias))
    = bind (aliases <- getitem pva alias_key ;;
            cp_range <- parse (fst kv) ;;
            Ok (cp_range, find_key_by_value aliases (snd kv)))
           (fun y => Ok (acc ++ [y])).
Proof.
  intros pva alias_key acc kv.
  destruct (getitem pva alias_key); simpl; [ | reflexivity ].
  now destruct (parse (fst kv)).
Qed.

(** X12: [patch_data] returns only for the properties that [property_info]
    gives an [alias_key] ([bc], [gc], [hst], [gcb], [ccc], [insc]); for any
    other name it raises.  When it returns, the patch holds one override per
    entry of the file, in the order of the file, with the range read from
    the key. *)
Theorem patch_data_aliased_only :
  forall (pva : dict string (dict string string)) (d : dict string string)
         (prop : string) (m : Missing),
    patch_data pva d prop = Ok m ->
    In prop ["bc"; "gc"; "hst"; "gcb"; "ccc"; "insc"]%string
    /\ Forall2 (fun kv rv => parse (fst kv) = Ok (fst rv)) d m.
Proof.
  intros pva d prop m E. unfold patch_data in E.
  destruct (getitem property_info prop) as [info | e] eqn:Ei; simpl in E;
    [ | discriminate ].
  destruct (alias_key info) as [ak |] eqn:Ea; simpl in E; [ | discriminate ].
  split.
  - apply getitem_Ok in Ei. simpl in Ei.
    repeat (destruct Ei as [Ei | Ei];
            [ injection Ei as <- <-; simpl in Ea;
              first [ discriminate Ea | simpl; tauto ] | ]).
    destruct Ei.
  - apply (for_each_map_ok _ _ (patch_body pva ak)) in E.
    eapply Forall2_impl; [ | exact E ]. intros kv rv H. simpl in H.
    destruct (getitem pva ak); simpl in H; [ | discriminate ].
    destruct (parse (fst kv)); simpl in H; [ | discriminate ].
    now injection H as <-.
Qed.

Lemma patch_data_aliased_only_witness :
  In "bc"%string ["bc"; "gc"; "hst"; "gcb"; "ccc"; "insc"]%string
  /\ Forall2 (fun kv rv => parse (fst kv) = Ok (fst rv))
       [("0600..07BF", "Arabic_Letter")]%string
       [(mkRange 0x600 0x7BF, Some "AL"%string)].
Proof.
  apply (patch_data_aliased_only
           [("bc", [("AL", "Arabic_Letter"); ("L", "Left_To_Right")])]%string).
  reflexivity.
Defined.

(** ** The flat tables, continued *)

Section CollectEach.
Context {A B : Type}.
Variable body : list B -> A -> result (list B).
Variable step : A -> result (list B).
Hypothesis body_step :
  forall acc x, body acc x = bind (step x) (fun ys => Ok (acc ++ ys)).

(** When the loop returns, every pass has returned and its yield is in the
    result. *)
Lemma for_each_collect_each :
  forall (xs : list A) (r : list B) (x : A),
    for_each body xs [] = Ok r -> In x xs ->
    exists ys, step x = Ok ys /\ incl ys r.
Proof.
  intros xs r x E Hin.
  pose proof (for_each_collect_In body step body_step xs r) as Hall.
  apply (for_each_collect body step body_step) in E.
  destruct E as (yss & HF & Er).
  destruct (Forall2_pick_l _ _ _ _ _ _ HF Hin) as (ys & Hys & Hs).
  exists ys. split; [ exact Hs | ].
  intros y Hy. subst r. simpl. apply in_concat. exists ys. auto.
Qed.

End CollectEach.

Lemma na_body :
  forall (acc : list (Z * string)) (kv : string * string),
    (rng <- parse (fst kv) ;;
     let cp := start rng in
     if ignored cp then Ok acc else Ok (acc ++ [(cp, snd kv)]))
    = bind (bind (parse (fst kv))
                 (fun rng => if ignored (start rng) then Ok []
                             else Ok [(start rng, snd kv)]))
           (fun ys => Ok (acc ++ ys)).
Proof.
  intros acc kv. destruct (parse (fst kv)); simpl; [ | reflexivity ].
  destruct (ignored _); simpl; [ now rewrite app_nil_r | reflexivity ].
Qed.

Lemma na_rows_ascending :
  forall (d : dict string string) (yss : list (list (Z * string)))
         (rngs : list CodePointRange),
    Forall2 (fun kv ys =>
               bind (parse (fst kv))
                    (fun rng => if ignored (start rng) then Ok []
                                else Ok [(start rng, snd kv)]) = Ok ys)
            d yss ->
    Forall2 (fun kv r => parse (fst kv) = Ok r) d rngs ->
    StronglySorted (fun a b => start a < start b) rngs ->
    StronglySorted (fun a b => fst a < fst b) (List.concat yss)
    /\ Forall (fun y => exists r, In r rngs /\ fst y = start r)
              (List.concat yss).
Proof.
  intros d yss rngs HF. revert rngs.
  induction HF as [| kv ys d yss Hs HF IH]; intros rngs Hp Hsorted; simpl.
  - split; constructor.
  - inversion Hp as [| ? r ? rngs' Hr Hp']; subst.
    inversion Hsorted as [| ? ? Hsorted' Hlt]; subst.
    destruct (IH rngs' Hp' Hsorted') as [IHs IHm].
    assert (IHm' : Forall (fun y => exists r0, In r0 (r :: rngs')
                                               /\ fst y = start r0)
                          (List.concat yss)).
    { eapply Forall_impl; [ | exact IHm ]. intros y (r0 & Hin & Hy).
      exists r0. split; [ now right | exact Hy ]. }
    rewrite Hr in Hs. simpl in Hs.
    destruct (ignored (start r)); injection Hs as <-; simpl.
    + split; assumption.
    + split.
      * constructor; [ exact IHs | ].
        eapply Forall_impl; [ | exact IHm ]. intros y (r0 & Hin & Hy).
        simpl. rewrite Hy. rewrite Forall_forall in Hlt. now apply Hlt.
      * constructor; [ | exact IHm' ]. exists r. split; [ now left | reflexivity ].
Qed.

(** X13: [na_table_rs] keeps the order of the file: when the code points of
    the entries ascend strictly, so do the code points of the rows of
    [NA_MAP]. *)
Theorem na_rows_keep_ascending :
  forall (d : dict string string) (rows : list (Z * string))
         (rngs : list CodePointRange),
    na_rows d = Ok rows ->
    Forall2 (fun kv r => parse (fst kv) = Ok r) d rngs ->
    StronglySorted (fun a b => start a < start b) rngs ->
    StronglySorted (fun a b => fst a < fst b) rows.
Proof.
  intros d rows rngs E Hp Hs. unfold na_rows in E.
  apply (for_each_collect _ _ na_body) in E.
  destruct E as (yss & HF & ->). simpl.
  exact (proj1 (na_rows_ascending d yss rngs HF Hp Hs)).
Qed.

Lemma na_rows_keep_ascending_witness :
  StronglySorted (fun a b => fst a < fst b)
                 [(0x41, "LATIN CAPITAL LETTER A"%string)].
Proof.
  apply (na_rows_keep_ascending sample_names
           [(0x41, "LATIN CAPITAL LETTER A"%string)]
           [mkRange 0x41 0x41; mkRange 0x4E00 0x4E00; mkRange 0xAC00 0xAC00]).
  - reflexivity.
  - repeat constructor.
  - repeat constructor; simpl; lia.
Defined.

Lemma dm_body :
  forall (acc : list (Z * string)) (kp : string * dict string string),
    (dm_raw <- getitem (snd kp) "dm"%string ;;
     if String.eqb dm_raw EmptyString then Ok acc
     else
       cp <- parse (fst kp) ;;
       let dm_raw := if startswith_char dm_raw "<" then re_sub_tag dm_raw
                     else dm_raw in
       Ok (acc ++ [(start cp, dm_escape dm_raw)]))
    = bind (dm_step kp) (fun ys => Ok (acc ++ ys)).
Proof.
  intros acc kp. unfold dm_step.
  destruct (getitem (snd kp) "dm"%string) as [dm_raw | e]; simpl;
    [ | reflexivity ].
  destruct (String.eqb dm_raw EmptyString); simpl; [ now rewrite app_nil_r | ].
  destruct (parse (fst kp)); reflexivity.
Qed.

Lemma rdm_body :
  forall (acc : list (list Z * string)) (kp : string * dict string string),
    (dm_raw <- getitem (snd kp) "dm"%string ;;
     if String.eqb dm_raw EmptyString then Ok acc
     else if startswith_char dm_raw "<" then Ok acc
     else
       dm_str <- dm_decode dm_raw ;;
       Ok (acc ++ [(dm_str, fst kp)]))
    = bind (rdm_step kp) (fun ys => Ok (acc ++ ys)).
Proof.
  intros acc kp. unfold rdm_step.
  destruct (getitem (snd kp) "dm"%string) as [dm_raw | e]; simpl;
    [ | reflexivity ].
  destruct (String.eqb dm_raw EmptyString); simpl; [ now rewrite app_nil_r | ].
  destruct (startswith_char dm_raw "<"); simpl; [ now rewrite app_nil_r | ].
  destruct (dm_decode dm_raw); reflexivity.
Qed.

(** An entry whose [dm] field is not empty and not tagged gets an entry in
    both tables. *)
Lemma dm_tables_canonical :
  forall (ud : dict string (dict string string))
         (dm : list (Z * string)) (rdm : list (list Z * string))
         (k : string) (props : dict string string) (dm_raw : string),
    dm_map_tables ud = Ok (dm, rdm) ->
    In (k, props) ud ->
    getitem props "dm"%string = Ok dm_raw ->
    dm_raw <> EmptyString ->
    startswith_char dm_raw "<" = false ->
    exists cp s,
      parse k = Ok cp
      /\ dm_decode dm_raw = Ok s
      /\ In (start cp, dm_escape dm_raw) dm
      /\ In (s, k) rdm.
Proof.
  intros ud dm rdm k props dm_raw E Hin Hget Hne Htag.
  unfold dm_map_tables in E.
  destruct (dm_rows ud) as [rows | e] eqn:Er; simpl in E; [ | discriminate ].
  destruct (rdm_collect ud) as [l | e] eqn:El; simpl in E; [ | discriminate ].
  injection E as <- <-.
  unfold dm_rows in Er. unfold rdm_collect in El.
  destruct (for_each_collect_each _ _ dm_body ud rows (k, props) Er Hin)
    as (ys & Hs & Hincl).
  destruct (for_each_collect_each _ _ rdm_body ud l (k, props) El Hin)
    as (zs & Hz & Hincl').
  unfold dm_step in Hs. unfold rdm_step in Hz. simpl in Hs, Hz.
  rewrite Hget in Hs, Hz. simpl in Hs, Hz.
  destruct (String.eqb_spec dm_raw EmptyString) as [-> | _]; [ now elim Hne | ].
  rewrite Htag in Hs, Hz.
  destruct (parse k) as [cp | e] eqn:Ep; simpl in Hs; [ | discriminate ].
  destruct (dm_decode dm_raw) as [s | e] eqn:Ed; simpl in Hz; [ | discriminate ].
  injection Hs as <-. injection Hz as <-.
  exists cp, s. repeat split.
  - apply Hincl. now left.
  - eapply Permutation_in;
      [ apply Permutation_sym, (sorted_perm fst str_ltb) | ].
    apply Hincl'. now left.
Qed.

Lemma concat_length_le :
  forall (A B C : Type) (xs : list A) (f : A -> result (list B))
         (g : A -> result (list C)) (yss : list (list B)) (zss : list (list C)),
    (forall x ys zs, f x = Ok ys -> g x = Ok zs ->
                     (List.length zs <= List.length ys)%nat) ->
    Forall2 (fun x ys => f x = Ok ys) xs yss ->
    Forall2 (fun x zs => g x = Ok zs) xs zss ->
    (List.length (List.concat zss) <= List.length (List.concat yss))%nat.
Proof.
  intros A B C xs f g yss zss Hle HF. revert zss.
  induction HF as [| x ys xs yss Hx HF IH]; intros zss HG;
    inversion HG as [| ? zs ? zss' Hz HG']; subst; simpl.
  - lia.
  - rewrite !length_app. specialize (IH zss' HG').
    specialize (Hle x ys zs Hx Hz). lia.
Qed.

(** X15: [RDM_MAP] never has more entries than [DM_MAP]. *)
Theorem rdm_map_not_longer :
  forall (ud : dict string (dict string string))
         (dm : list (Z * string)) (rdm : list (list Z * string)),
    dm_map_tables ud = Ok (dm, rdm) ->
    (List.length rdm <= List.length dm)%nat.
Proof.
  intros ud dm rdm E. unfold dm_map_tables in E.
  destruct (dm_rows ud) as [rows | e] eqn:Er; simpl in E; [ | discriminate ].
  destruct (rdm_collect ud) as [l | e] eqn:El; simpl in E; [ | discriminate ].
  injection E as <- <-.
  rewrite (Permutation_length (sorted_perm fst str_ltb l)).
  apply (for_each_collect _ _ dm_body) in Er. destruct Er as (yss & HF & ->).
  apply (for_each_collect _ _ rdm_body) in El. destruct El as (zss & HG & ->).
  simpl. apply (concat_length_le _ _ _ ud dm_step rdm_step); try assumption.
  intros [k props] ys zs Hy Hz. unfold dm_step in Hy. unfold rdm_step in Hz.
  simpl in Hy, Hz.
  destruct (getitem props "dm"%string) as [dm_raw | e]; simpl in Hy, Hz;
    [ | discriminate ].
  destruct (String.eqb dm_raw EmptyString).
  - injection Hz as <-. simpl. lia.
  - destruct (parse k); simpl in Hy; [ | discriminate ]. injection Hy as <-.
    destruct (startswith_char dm_raw "<"); [ injection Hz as <-; simpl; lia | ].
    destruct (dm_decode dm_raw); simpl in Hz; [ | discriminate ].
    injection Hz as <-. simpl. lia.
Qed.

Lemma rdm_map_not_longer_witness :
  (List.length [ ([0x41; 0x300]%Z, "00C0"%string) ]
   <= List.length [ (0xA8%Z, "\u{0020}\u{0308}"%string);
                    (0xC0%Z, "\u{0041}\u{0300}"%string) ])%nat.
Proof.
  apply (rdm_map_not_longer sample_unicode_data). reflexivity.
Defined.

(** ** Hexadecimal text *)

Lemma append_nil_r : forall s : string, (s ++ EmptyString)%string = s.
Proof. induction s as [| c s IH]; simpl; [ reflexivity | now rewrite IH ]. Qed.

Lemma append_assoc :
  forall a b c : string, ((a ++ b) ++ c)%string = (a ++ (b ++ c))%string.
Proof.
  intros a b c. induction a as [| x a IH]; simpl; [ reflexivity | now rewrite IH ].
Qed.

Lemma length_append :
  forall a b : string,
    String.length (a ++ b) = (String.length a + String.length b)%nat.
Proof.
  intros a b. induction a as [| x a IH]; simpl; [ reflexivity | now rewrite IH ].
Qed.

Lemma hex_digit_char : forall d : Z, 0 <= d < 16 -> hex_digit (hex_char d) = Some d.
Proof.
  intros d Hd.
  assert (Hcases : d = 0 \/ d = 1 \/ d = 2 \/ d = 3 \/ d = 4 \/ d = 5 \/ d = 6
                   \/ d = 7 \/ d = 8 \/ d = 9 \/ d = 10 \/ d = 11 \/ d = 12
                   \/ d = 13 \/ d = 14 \/ d = 15) by lia.
  repeat (destruct Hcases as [-> | Hcases]; [ reflexivity | ]).
  subst d. reflexivity.
Qed.

Lemma hex_acc_app :
  forall (s1 s2 : string) (a : Z),
    hex_acc (s1 ++ s2) a
    = match hex_acc s1 a with
      | Some b => hex_acc s2 b
      | None => None
      end.
Proof.
  induction s1 as [| c s1 IH]; intros s2 a; simpl; [ reflexivity | ].
  destruct (hex_digit c); [ apply IH | reflexivity ].
Qed.

(** The digits [hex_upper_fuel] puts in front of [s] read back as [n]. *)
Lemma hex_upper_fuel_digits :
  forall (fuel : nat) (n : Z) (s : string),
    (0 < fuel)%nat -> 0 <= n < 16 ^ Z.of_nat fuel ->
    exists digits,
      hex_upper_fuel fuel n s = (digits ++ s)%string
      /\ digits <> EmptyString
      /\ forall a, hex_acc digits a
                   = Some (a * 16 ^ Z.of_nat (String.length digits) + n).
Proof.
  induction fuel as [| fuel IH]; intros n s Hfuel Hn; [ lia | ].
  simpl. destruct (Z.eqb_spec (n / 16) 0) as [Hq | Hq].
  - exists (String (hex_char (n mod 16)) EmptyString).
    split; [ reflexivity | ]. split; [ discriminate | ].
    intros a. cbn [hex_acc String.length].
    rewrite hex_digit_char by (apply Z.mod_pos_bound; lia).
    f_equal. change (Z.of_nat 1) with 1. rewrite Z.pow_1_r.
    pose proof (Z.div_mod n 16 ltac:(lia)). lia.
  - destruct fuel as [| fuel'].
    + exfalso. apply Hq. apply Z.div_small. simpl in Hn. lia.
    + assert (Hn' : 0 <= n / 16 < 16 ^ Z.of_nat (S fuel')).
      { split; [ apply Z.div_pos; lia | ].
        apply Z.div_lt_upper_bound; [ lia | ].
        replace (Z.of_nat (S (S fuel'))) with (Z.succ (Z.of_nat (S fuel')))
          in Hn by lia.
        rewrite Z.pow_succ_r in Hn by lia. lia. }
      destruct (IH (n / 16) (String (hex_char (n mod 16)) s)
                   ltac:(lia) Hn') as (digits & Hd & Hne & Hacc).
      exists (digits ++ String (hex_char (n mod 16)) EmptyString)%string.
      split; [ rewrite Hd, append_assoc; reflexivity | ].
      split; [ destruct digits; [ now elim Hne | discriminate ] | ].
      intros a. rewrite hex_acc_app, Hacc. cbn [hex_acc].
      rewrite hex_digit_char by (apply Z.mod_pos_bound; lia).
      f_equal. rewrite length_append. cbn [String.length].
      replace (Z.of_nat (String.length digits + 1))
        with (Z.succ (Z.of_nat (String.length digits))) by lia.
      rewrite Z.pow_succ_r by lia.
      pose proof (Z.div_mod n 16 ltac:(lia)). lia.
Qed.

Lemma hex_upper_digits :
  forall n : Z,
    0 <= n ->
    hex_upper n <> EmptyString
    /\ forall a, hex_acc (hex_upper n) a
                 = Some (a * 16 ^ Z.of_nat (String.length (hex_upper n)) + n).
Proof.
  intros n Hn. unfold hex_upper.
  assert (Hb : 0 <= n < 16 ^ Z.of_nat (S (Z.to_nat (Z.log2 n)))).
  { split; [ exact Hn | ].
    pose proof (Z.log2_nonneg n) as Hl.
    replace (Z.of_nat (S (Z.to_nat (Z.log2 n)))) with (Z.succ (Z.log2 n))
      by lia.
    destruct (Z.eq_dec n 0) as [-> | Hz].
    - simpl. lia.
    - pose proof (Z.log2_spec n ltac:(lia)) as [_ Hlt].
      eapply Z.lt_le_trans; [ exact Hlt | ].
      apply Z.pow_le_mono_l. lia. }
  destruct (hex_upper_fuel_digits (S (Z.to_nat (Z.log2 n))) n EmptyString
              ltac:(lia) Hb)
    as (digits & Hd & Hne & Hacc).
  rewrite Hd, append_nil_r. auto.
Qed.

Lemma hex_acc_zeros :
  forall (k : nat) (s : string), hex_acc (zeros k ++ s) 0 = hex_acc s 0.
Proof. induction k as [| k IH]; intros s; simpl; [ reflexivity | apply IH ]. Qed.

(** The text ['{:04X}'] makes of a number reads back, with [int(., 16)], as
    that number. *)
Lemma int16_hex04 : forall n : Z, 0 <= n -> int16 (hex04 n) = Ok n.
Proof.
  intros n Hn. destruct (hex_upper_digits n Hn) as [Hne Hacc].
  unfold int16, hex04.
  destruct (zeros _ ++ hex_upper n)%string as [| c s] eqn:E.
  - exfalso. destruct (zeros (4 - String.length (hex_upper n))); simpl in E;
      [ now apply Hne | discriminate ].
  - rewrite <- E, hex_acc_zeros, Hacc. reflexivity.
Qed.

Lemma hex_acc_char_free :
  forall (s : string) (a b : Z),
    hex_acc s a = Some b -> char_free " " s = true.
Proof.
  induction s as [| c s IH]; intros a b E; simpl in *; [ reflexivity | ].
  destruct (hex_digit c) as [d |] eqn:Ed; [ | discriminate ].
  rewrite (IH _ _ E), andb_true_r.
  destruct (Ascii.eqb_spec c " ") as [-> | _]; [ discriminate Ed | reflexivity ].
Qed.

Lemma hex04_char_free : forall n : Z, 0 <= n -> char_free " " (hex04 n) = true.
Proof.
  intros n Hn. pose proof (int16_hex04 n Hn) as E. unfold int16 in E.
  destruct (hex04 n) as [| c s] eqn:Eh; [ reflexivity | ].
  destruct (hex_acc (String c s) 0) as [m |] eqn:Ea; [ | discriminate ].
  now apply (hex_acc_char_free _ 0 m).
Qed.

Lemma split_char_whole :
  forall (sep : ascii) (w : string),
    char_free sep w = true -> split_char sep w = [w].
Proof.
  intros sep w. induction w as [| c w IH]; simpl; intros Hf; [ reflexivity | ].
  apply andb_true_iff in Hf. destruct Hf as [Hc Hw].
  apply negb_true_iff in Hc. rewrite Hc, (IH Hw). reflexivity.
Qed.

Lemma split_char_cut :
  forall (sep : ascii) (w rest : string),
    char_free sep w = true ->
    split_char sep (w ++ String sep rest) = w :: split_char sep rest.
Proof.
  intros sep w rest. induction w as [| c w IH]; simpl; intros Hf.
  - now rewrite Ascii.eqb_refl.
  - apply andb_true_iff in Hf. destruct Hf as [Hc Hw].
    apply negb_true_iff in Hc. rewrite Hc, (IH Hw). reflexivity.
Qed.

Lemma split_char_concat :
  forall (sep : ascii) (ws : list string),
    ws <> [] ->
    Forall (fun w => char_free sep w = true) ws ->
    split_char sep (String.concat (String sep EmptyString) ws) = ws.
Proof.
  intros sep ws Hne HF. induction HF as [| w ws Hw HF IH]; [ now elim Hne | ].
  destruct ws as [| w' ws'].
  - simpl. now apply split_char_whole.
  - change (String.concat (String sep EmptyString) (w :: w' :: ws'))
      with (w ++ String sep (String.concat (String sep EmptyString) (w' :: ws')))%string.
    rewrite split_char_cut by exact Hw. rewrite IH; [ reflexivity | discriminate ].
Qed.

Lemma decode_body :
  forall (acc : list Z) (x : string),
    (n <- int16 x ;; ch <- chr n ;; Ok (acc ++ [ch]))
    = bind (bind (int16 x) chr) (fun y => Ok (acc ++ [y])).
Proof.
  intros acc x. destruct (int16 x) as [n | e]; simpl; [ | reflexivity ].
  now destruct (chr n).
Qed.

(** X16: a decomposition written in the usual way (one or more code points
    of the Unicode range, each as ['{:04X}'] prints it, separated by single
    blanks) is decoded by the [RDM_MAP] loop into exactly those code points,
    and the text [str_as_escaped] then writes for the key of [RDM_MAP] is
    the text the [DM_MAP] loop writes for the value. *)
Theorem dm_decode_of_formatted :
  forall ns : list Z,
    ns <> [] ->
    Forall (fun n => 0 <= n <= 0x10FFFF) ns ->
    dm_decode (String.concat " " (map hex04 ns)) = Ok ns
    /\ str_as_escaped ns = dm_escape (String.concat " " (map hex04 ns)).
Proof.
  intros ns Hne Hns.
  assert (Hsplit : split_char space (String.concat " " (map hex04 ns))
                   = map hex04 ns).
  { apply (split_char_concat space).
    - destruct ns; [ now elim Hne | discriminate ].
    - apply Forall_map. eapply Forall_impl; [ | exact Hns ].
      intros n Hn. cbv beta in Hn. apply hex04_char_free. lia. }
  split.
  - unfold dm_decode. rewrite Hsplit.
    apply (for_each_map_ok _ _ decode_body).
    clear Hne Hsplit. induction Hns as [| n ns Hn _ IH]; simpl; constructor.
    + rewrite int16_hex04 by lia. simpl. unfold chr.
      destruct (Z.leb_spec 0 n); [ | lia ].
      destruct (Z.leb_spec n 1114111); [ reflexivity | lia ].
    + exact IH.
  - unfold dm_escape, str_as_escaped. rewrite Hsplit, map_map. reflexivity.
Qed.

Lemma dm_decode_of_formatted_witness :
  dm_decode (String.concat " " (map hex04 [0x41; 0x30A])) = Ok [0x41; 0x30A]
  /\ str_as_escaped [0x41; 0x30A]
     = dm_escape (String.concat " " (map hex04 [0x41; 0x30A])).
Proof.
  apply (dm_decode_of_formatted [0x41; 0x30A]).
  - discriminate.
  - repeat constructor; lia.
Defined.

(** ** Tagged decompositions *)

Lemma tag_match_none :
  forall (t : string) (n : nat), char_free ">" t = true -> tag_match t n = None.
Proof.
  induction t as [| c t IH]; intros n Hf; simpl in *; [ reflexivity | ].
  apply andb_true_iff in Hf. destruct Hf as [Hc Ht].
  apply negb_true_iff in Hc.
  destruct (Ascii.eqb c newline); [ reflexivity | ].
  rewrite (IH _ Ht), Hc, andb_false_r. reflexivity.
Qed.

Lemma tag_match_tag :
  forall (tag rest : string) (n : nat),
    (1 <= n + String.length tag)%nat ->
    char_free newline tag = true ->
    char_free ">" rest = true ->
    tag_match (tag ++ String ">" (String " " rest)) n
    = Some (n + String.length tag + 2)%nat.
Proof.
  induction tag as [| c tag IH]; intros rest n Hn Hnl Hrest.
  - simpl in *. rewrite (tag_match_none rest _ Hrest).
    destruct n as [| n]; [ lia | ]. simpl. f_equal. lia.
  - simpl in Hnl. apply andb_true_iff in Hnl. destruct Hnl as [Hc Htag].
    apply negb_true_iff in Hc.
    change ((String c tag ++ String ">" (String " " rest))%string)
      with (String c (tag ++ String ">" (String " " rest))).
    cbn [tag_match]. rewrite Hc.
    rewrite (IH rest (S n)) by (simpl in *; (lia || assumption)).
    f_equal. simpl. lia.
Qed.

Lemma re_sub_tag_skip :
  forall a b : string,
    re_sub_tag_from (a ++ b) (String.length a) = re_sub_tag_from b 0.
Proof.
  induction a as [| c a IH]; intros b; simpl; [ reflexivity | apply IH ].
Qed.

Lemma re_sub_tag_untouched :
  forall s : string, char_free "<" s = true -> re_sub_tag_from s 0 = s.
Proof.
  induction s as [| c s IH]; simpl; intros Hf; [ reflexivity | ].
  apply andb_true_iff in Hf. destruct Hf as [Hc Hs].
  apply negb_true_iff in Hc. rewrite Hc, (IH Hs). reflexivity.
Qed.

(** [re.sub('<.+> ', '', .)] takes a leading tag off. *)
Lemma re_sub_tag_strips :
  forall tag codes : string,
    tag <> EmptyString ->
    char_free newline tag = true ->
    char_free "<" codes = true ->
    char_free ">" codes = true ->
    re_sub_tag (String "<" (tag ++ String ">" (String " " codes))) = codes.
Proof.
  intros tag codes Hne Hnl Hlt Hgt. unfold re_sub_tag. cbn [re_sub_tag_from].
  rewrite Ascii.eqb_refl.
  rewrite (tag_match_tag tag codes 0); try assumption.
  - replace (tag ++ String ">" (String " " codes))%string
      with ((tag ++ String ">" (String " " EmptyString)) ++ codes)%string
      by (rewrite append_assoc; reflexivity).
    replace (0 + String.length tag + 2)%nat
      with (String.length (tag ++ String ">" (String " " EmptyString)))
      by (rewrite length_append; simpl; lia).
    rewrite re_sub_tag_skip. now apply re_sub_tag_untouched.
  - destruct tag; [ now elim Hne | simpl; lia ].
Qed.

(** The row of a tagged entry is made of its code fields alone. *)
Lemma dm_tables_tag_stripped :
  forall (ud : dict string (dict string string))
         (dm : list (Z * string)) (rdm : list (list Z * string))
         (k : string) (props : dict string string) (tag codes : string),
    dm_map_tables ud = Ok (dm, rdm) ->
    In (k, props) ud ->
    getitem props "dm"%string
    = Ok (String "<" (tag ++ String ">" (String " " codes))) ->
    tag <> EmptyString ->
    char_free newline tag = true ->
    char_free "<" codes = true ->
    char_free ">" codes = true ->
    exists cp, parse k = Ok cp /\ In (start cp, dm_escape codes) dm.
Proof.
  intros ud dm rdm k props tag codes E Hin Hget Hne Hnl Hlt Hgt.
  unfold dm_map_tables in E.
  destruct (dm_rows ud) as [rows | e] eqn:Er; simpl in E; [ | discriminate ].
  destruct (rdm_collect ud) as [l | e]; simpl in E; [ | discriminate ].
  injection E as <- <-. unfold dm_rows in Er.
  destruct (for_each_collect_each _ _ dm_body ud rows (k, props) Er Hin)
    as (ys & Hs & Hincl).
  unfold dm_step in Hs. cbn [fst snd] in Hs. rewrite Hget in Hs.
  cbn [bind String.eqb startswith_char] in Hs.
  rewrite Ascii.eqb_refl in Hs.
  destruct (parse k) as [cp | e] eqn:Ep; cbn [bind] in Hs; [ | discriminate ].
  injection Hs as <-.
  rewrite (re_sub_tag_strips tag codes Hne Hnl Hlt Hgt) in Hincl.
  exists cp. split; [ reflexivity | ]. apply Hincl. now left.
Qed.

(** ** Grouped emission, continued *)

Lemma enumerate_from_In :
  forall (A : Type) (l : list A) (i j : Z) (x : A),
    In (j, x) (enumerate_from i l) -> In x l.
Proof.
  intros A l. induction l as [| y l IH]; intros i j x Hin; simpl in *.
  - exact Hin.
  - destruct Hin as [Hin | Hin]; [ left; congruence | right; eauto ].
Qed.

Lemma In_enumerate_from :
  forall (A : Type) (l : list A) (i : Z) (x : A),
    In x l -> exists j, In (j, x) (enumerate_from i l).
Proof.
  intros A l. induction l as [| y l IH]; intros i x Hin; simpl in *.
  - destruct Hin.
  - destruct Hin as [-> | Hin].
    + exists i. now left.
    + destruct (IH (i + 1) x Hin) as (j & Hj). exists j. now right.
Qed.

Section EmojiErrors.
Context {T : Type} `{TwoStageTableOps T}.
Variable property_aliases : dict string string.
Variable emoji_data_dict : dict string (list (CodePointRange * string)).

Lemma emoji_body :
  forall (acc : list routine) (ip : Z * string),
    (r <- emoji_pass property_aliases emoji_data_dict ip ;; Ok (acc ++ [r]))
    = bind (emoji_pass property_aliases emoji_data_dict ip)
           (fun y => Ok (acc ++ [y])).
Proof. reflexivity. Qed.

Lemma emoji_pass_Ok :
  forall (ip : Z * string) (r : routine),
    emoji_pass property_aliases emoji_data_dict ip = Ok r ->
    find_key_by_value property_aliases (snd ip) <> None.
Proof.
  intros ip r E Hnone. unfold emoji_pass in E. rewrite Hnone in E.
  discriminate E.
Qed.

End EmojiErrors.

(** ** The binary properties *)

Lemma for_each_app :
  forall (A S : Type) (body : S -> A -> result S) (xs ys : list A) (acc : S),
    for_each body (xs ++ ys) acc
    = bind (for_each body xs acc) (for_each body ys).
Proof.
  intros A S body xs ys. induction xs as [| x xs IH]; intros acc; simpl.
  - reflexivity.
  - destruct (body acc x); simpl; [ apply IH | reflexivity ].
Qed.

Lemma binary_fn_name_skip :
  forall (pa : dict string string) (k acc : string),
    ~ In k (values pa) ->
    for_each
      (fun fn_name al =>
         if String.eqb (snd al) k then to_snake_case (Some (fst al))
         else Ok fn_name)
      pa acc = Ok acc.
Proof.
  intros pa k. induction pa as [| [a long] pa IH]; intros acc Hn; simpl.
  - reflexivity.
  - destruct (String.eqb_spec long k) as [-> | Hne].
    + exfalso. apply Hn. now left.
    + simpl. apply IH. intros Hin. apply Hn. now right.
Qed.

Lemma binary_fn_name_runs :
  forall (pa : dict string string) (k acc : string),
    exists name,
      for_each
        (fun fn_name al =>
           if String.eqb (snd al) k then to_snake_case (Some (fst al))
           else Ok fn_name)
        pa acc = Ok name.
Proof.
  intros pa k. induction pa as [| [a long] pa IH]; intros acc; simpl.
  - now exists acc.
  - destruct (String.eqb long k); simpl.
    + destruct (String.eqb a "ExtPict"); simpl; apply IH.
    + apply IH.
Qed.

(** X19: the function [binary_props_rs] writes for a property is named
    after the last alias of [PropertyAliases.json] whose long name is the
    property (not the first, as [find_key_by_value] would choose), and its
    name is empty when no alias has that long name. *)
Theorem binary_fn_name_last_alias :
  forall (pa : dict string string) (k : string),
    (~ In k (values pa) -> binary_fn_name pa k = Ok EmptyString)
    /\ (forall pa1 a pa2,
          pa = pa1 ++ (a, k) :: pa2 -> ~ In k (values pa2) ->
          binary_fn_name pa k = to_snake_case (Some a)).
Proof.
  intros pa k. split.
  - intros Hn. unfold binary_fn_name. now apply binary_fn_name_skip.
  - intros pa1 a pa2 -> Hn. unfold binary_fn_name.
    rewrite for_each_app.
    destruct (binary_fn_name_runs pa1 k EmptyString) as (n1 & ->).
    cbn [bind for_each snd fst]. rewrite String.eqb_refl.
    cbn [to_snake_case].
    destruct (String.eqb a "ExtPict"); cbn [bind];
      now apply binary_fn_name_skip.
Qed.

Lemma binary_fn_name_last_alias_witness :
  binary_fn_name sample_binary_aliases "White_Space" = Ok "space"%string.
Proof.
  apply (proj2 (binary_fn_name_last_alias sample_binary_aliases "White_Space")
               [("WSpace", "White_Space")]%string "space"%string
               [("Dash", "Dash")]%string).
  - reflexivity.
  - simpl. intuition discriminate.
Defined.

Lemma binary_checks_body :
  forall (rs : list string) (t r : string),
    binary_checks t rs = Ok r ->
    exists b, r = (t ++ b)%string
              /\ forall t', binary_checks t' rs = Ok (t' ++ b)%string.
Proof.
  unfold binary_checks.
  induction rs as [| x rs IH]; intros t r E; simpl in E.
  - injection E as <-. exists EmptyString.
    split; [ now rewrite append_nil_r | ].
    intros t'. simpl. now rewrite append_nil_r.
  - destruct (parse x) as [rg | e] eqn:Ep; simpl in E; [ | discriminate ].
    destruct (IH _ _ E) as (b & -> & Hall).
    exists (binary_check rg ++ b)%string.
    split; [ now rewrite append_assoc | ].
    intros t'. simpl. rewrite Ep. simpl. rewrite Hall.
    now rewrite append_assoc.
Qed.

Lemma binary_pass_new :
  forall (pa : dict string string) (txt prev k : string) (rs : list string)
         (st : string * string),
    prev <> k ->
    binary_pass pa (txt, prev) (k, rs) = Ok st ->
    exists fn,
      binary_fn_text pa (k, rs) = Ok (fn ++ binary_false ++ "}" ++ nl)%string
      /\ st = ((if String.eqb prev EmptyString then txt
                else txt ++ binary_false ++ "}" ++ nl ++ nl) ++ fn, k)%string.
Proof.
  intros pa txt prev k rs st Hne E. unfold binary_pass in E.
  cbn [fst snd] in E.
  destruct (String.eqb_spec prev k) as [Heq | _]; [ contradiction | ].
  cbn [negb andb] in E.
  destruct (binary_fn_name pa k) as [name | e] eqn:En; cbn [bind] in E;
    [ | discriminate ].
  match type of E with
  | bind (binary_checks ?t rs) _ = _ =>
      destruct (binary_checks t rs) as [r | e] eqn:Ec; cbn [bind] in E;
        [ | discriminate ]
  end.
  injection E as <-.
  destruct (binary_checks_body rs _ r Ec) as (b & -> & Hall).
  exists (binary_open name ++ b)%string. split.
  - unfold binary_fn_text. cbn [fst snd]. rewrite En. cbn [bind].
    rewrite (Hall (binary_open name)). cbn [bind].
    now rewrite !append_assoc.
  - destruct (String.eqb prev EmptyString); cbn [negb];
      now rewrite !append_assoc.
Qed.

Lemma binary_loop :
  forall (pa : dict string string) (d : dict string (list string))
         (txt prev : string) (st : string * string),
    d <> [] ->
    ~ In prev (keys d) ->
    NoDup (keys d) ->
    ~ In EmptyString (keys d) ->
    for_each (binary_pass pa) d (txt, prev) = Ok st ->
    exists fns,
      Forall2 (fun kr fn => binary_fn_text pa kr = Ok fn) d fns
      /\ (fst st ++ binary_false ++ "}" ++ nl)%string
         = ((if String.eqb prev EmptyString then txt
             else txt ++ binary_false ++ "}" ++ nl ++ nl)
            ++ String.concat nl fns)%string.
Proof.
  intros pa d. induction d as [| [k rs] d IH];
    intros txt prev st Hd Hprev Hnd Hempty E; [ now elim Hd | ].
  simpl in E.
  destruct (binary_pass pa (txt, prev) (k, rs)) as [st1 | e] eqn:Ep;
    cbn [bind] in E; [ | discriminate ].
  assert (Hpk : prev <> k) by (intros ->; apply Hprev; now left).
  destruct (binary_pass_new pa txt prev k rs st1 Hpk Ep) as (fn & Hfn & ->).
  inversion Hnd as [| ? ? Hk Hnd']; subst.
  destruct d as [| kr d'].
  - simpl in E. injection E as <-.
    exists [(fn ++ binary_false ++ "}" ++ nl)%string].
    split; [ constructor; [ exact Hfn | constructor ] | ].
    cbn [fst String.concat]. now rewrite !append_assoc.
  - apply IH in E; try assumption; try discriminate.
    + destruct E as (fns & HF & Eq).
      exists ((fn ++ binary_false ++ "}" ++ nl)%string :: fns).
      split; [ constructor; assumption | ].
      rewrite Eq.
      destruct (String.eqb_spec k EmptyString) as [-> | _].
      * exfalso. apply Hempty. now left.
      * inversion HF as [| ? fn' ? fns' _ _]; subst.
        change (String.concat nl ((fn ++ binary_false ++ "}" ++ nl)%string
                                    :: fn' :: fns'))
          with ((fn ++ binary_false ++ "}" ++ nl) ++ nl
                ++ String.concat nl (fn' :: fns'))%string.
        now rewrite !append_assoc.
    + intros Hin. apply Hempty. now right.
Qed.

(** X20: on a non-empty file whose property names are distinct and not
    empty, [binary_props_rs] writes one complete function per property, in
    the order of the file: each is opened, tests its ranges and is closed
    with [false] and a brace, and two functions are one empty line apart. *)
Theorem binary_props_rs_functions :
  forall (pa : dict string string) (d : dict string (list string))
         (txt : string),
    d <> [] ->
    NoDup (keys d) ->
    ~ In EmptyString (keys d) ->
    binary_props_rs pa d = Ok txt ->
    exists fns,
      Forall2 (fun kr fn => binary_fn_text pa kr = Ok fn) d fns
      /\ txt = String.concat nl fns.
Proof.
  intros pa d txt Hd Hnd Hempty E. unfold binary_props_rs in E.
  destruct (for_each (binary_pass pa) d (EmptyString, EmptyString))
    as [st | e] eqn:El; cbn [bind] in E; [ | discriminate ].
  injection E as <-.
  destruct (binary_loop pa d EmptyString EmptyString st Hd Hempty Hnd Hempty El)
    as (fns & HF & Eq).
  exists fns. split; [ exact HF | exact Eq ].
Qed.

Lemma binary_props_rs_functions_witness :
  exists txt,
    binary_props_rs sample_binary_aliases sample_proplist = Ok txt
    /\ exists fns,
         Forall2 (fun kr fn => binary_fn_text sample_binary_aliases kr = Ok fn)
                 sample_proplist fns
         /\ txt = String.concat nl fns.
Proof.
  eexists. split; [ reflexivity | ].
  apply (binary_props_rs_functions sample_binary_aliases sample_proplist).
  - discriminate.
  - repeat constructor; simpl; intuition discriminate.
  - simpl; intuition discriminate.
  - reflexivity.
Defined.

(** ** The two lookups *)

(** X22: whenever the exact lookup [find_key_by_value] finds a key for a
    token, the lookup [find_key_by_value_ci] finds one too (the first key
    whose value agrees with the token up to case and delimiters). *)
Theorem find_key_by_value_ci_covers_exact :
  forall (d : dict string string) (val k : string),
    find_key_by_value d val = Some k ->
    exists k', find_key_by_value_ci d val = Some k'.
Proof.
  intros d val. induction d as [| [k0 v] d IH]; intros k E; simpl in E.
  - discriminate.
  - rewrite find_key_by_value_ci_step.
    destruct (String.eqb_spec v val) as [-> | Hne].
    + rewrite String.eqb_refl. now exists k0.
    + destruct (String.eqb (ci_form val) (ci_form v)); [ now exists k0 | ].
      now apply (IH k).
Qed.

Lemma find_key_by_value_ci_covers_exact_witness :
  exists k',
    find_key_by_value_ci [("ASCII", "Basic_Latin"); ("Grek", "Greek")]%string
                         "Greek" = Some k'.
Proof.
  apply (find_key_by_value_ci_covers_exact
           [("ASCII", "Basic_Latin"); ("Grek", "Greek")]%string "Greek" "Grek").
  reflexivity.
Defined.

(** ** The case-insensitive lookup on text of any script *)

Section CaseMappingFacts.
Variable py_upper : string -> string.
Variable py_title : string -> string.

Lemma ci_lookup_step :
  forall (d : dict string string) (k v val : string),
    U.find_key_by_value_ci py_upper ((k, v) :: d) val
    = if String.eqb (U.ci_form py_upper val) (U.ci_form py_upper v) then Some k
      else U.find_key_by_value_ci py_upper d val.
Proof.
  intros d k v val. simpl. unfold U.ci_form.
  now rewrite replace_delims_comm.
Qed.

Lemma blk_body_any :
  forall (aliases : dict string string) (acc : list (CodePointRange * string))
         (pair : CodePointRange * string),
    (let value := replace_char " " "_" (snd pair) in
     let value := replace_char "-" "_" value in
     let key := U.find_key_by_value_ci py_upper aliases value in
     abbr <- U.to_pascal_case py_title key ;; Ok (acc ++ [(fst pair, abbr)]))
    = bind (bind (U.to_pascal_case py_title
                    (U.find_key_by_value_ci py_upper aliases
                       (replace_char "-" "_" (replace_char " " "_" (snd pair)))))
                 (fun abbr => Ok (fst pair, abbr)))
           (fun y => Ok (acc ++ [y])).
Proof.
  intros aliases acc pair. cbv zeta.
  now destruct (U.to_pascal_case py_title _).
Qed.

End CaseMappingFacts.

(** On ASCII text the definitions with the ASCII case mappings are the
    instances of the general ones. *)
Lemma find_key_by_value_ci_instance :
  forall (d : dict string string) (val : string),
    find_key_by_value_ci d val = U.find_key_by_value_ci upper d val.
Proof.
  intros d val. induction d as [| [k v] d IH]; simpl; [ reflexivity | ].
  now rewrite IH.
Qed.

(** X2: whatever [str.upper] does, [find_key_by_value_ci] answers the first
    key whose value agrees with the token once ["-"] and ["_"] are blanks
    and [upper] is applied, and [None] exactly when no value of the table
    agrees with it so. *)
Theorem find_key_by_value_ci_first_match :
  forall (py_upper : string -> string) (d : dict string string)
         (val : string),
    match U.find_key_by_value_ci py_upper d val with
    | Some k =>
        exists d1 v d2,
          d = d1 ++ (k, v) :: d2
          /\ U.ci_form py_upper v = U.ci_form py_upper val
          /\ Forall (fun kv => U.ci_form py_upper (snd kv)
                               <> U.ci_form py_upper val) d1
    | None =>
        Forall (fun kv => U.ci_form py_upper (snd kv)
                          <> U.ci_form py_upper val) d
    end.
Proof.
  intros py_upper d val. induction d as [| [k v] d IH].
  - simpl. constructor.
  - rewrite ci_lookup_step.
    destruct (String.eqb_spec (U.ci_form py_upper val) (U.ci_form py_upper v))
      as [E | Hne].
    + exists [], v, d. split; [ reflexivity | ]. split; [ now symmetry | ].
      constructor.
    + destruct (U.find_key_by_value_ci py_upper d val) as [k' |].
      * destruct IH as (d1 & v' & d2 & -> & Hv & Hd1).
        exists ((k, v) :: d1), v', d2. split; [ reflexivity | ].
        split; [ exact Hv | ]. constructor; [ simpl; congruence | exact Hd1 ].
      * constructor; [ simpl; congruence | exact IH ].
Qed.

(** X3: whatever [str.upper] does, the answer of [find_key_by_value_ci]
    depends on the token only through its form after ["-"] and ["_"] are
    blanks and [upper] is applied: two tokens of the same form get the same
    key. *)
Theorem find_key_by_value_ci_insensitive :
  forall (py_upper : string -> string) (d : dict string string)
         (val val' : string),
    U.ci_form py_upper val = U.ci_form py_upper val' ->
    U.find_key_by_value_ci py_upper d val
    = U.find_key_by_value_ci py_upper d val'.
Proof.
  intros py_upper d val val' E. induction d as [| [k v] d IH]; [ reflexivity | ].
  rewrite !ci_lookup_step, E, IH. reflexivity.
Qed.

Lemma find_key_by_value_ci_insensitive_witness :
  U.find_key_by_value_ci upper
    [("Latin_1_Sup", "Latin_1_Supplement")]%string "Latin-1 Supplement"
  = U.find_key_by_value_ci upper
      [("Latin_1_Sup", "Latin_1_Supplement")]%string "latin_1_supplement".
Proof.
  apply (find_key_by_value_ci_insensitive upper
           [("Latin_1_Sup", "Latin_1_Supplement")]%string
           "Latin-1 Supplement" "latin_1_supplement").
  reflexivity.
Defined.

(** X7: whatever [str.upper] and [str.title] do, once the [blk] table is
    loaded [data_value_as_abbr_blk] either returns, for every pair, the same
    range with the titled pieces of the key found for the block name, or
    raises an [AttributeError] because some block name of the data has no
    key in the table; a name without alias is never passed on. *)
Theorem data_value_as_abbr_blk_strict :
  forall (py_upper py_title : string -> string)
         (pva : dict string (dict string string))
         (aliases : dict string string)
         (data : list (CodePointRange * string)),
    getitem pva "blk"%string = Ok aliases ->
    match U.data_value_as_abbr_blk py_upper py_title pva data with
    | Ok out =>
        Forall2
          (fun p q =>
             fst q = fst p
             /\ exists k,
                  U.find_key_by_value_ci py_upper aliases
                    (replace_char "-" "_" (replace_char " " "_" (snd p)))
                  = Some k
                  /\ snd q = join (map py_title (split_char "_" k)))
          data out
    | Raise e =>
        e = AttributeError
        /\ exists p,
             In p data
             /\ U.find_key_by_value_ci py_upper aliases
                  (replace_char "-" "_" (replace_char " " "_" (snd p)))
                = None
    end.
Proof.
  intros py_upper py_title pva aliases data Hget.
  unfold U.data_value_as_abbr_blk. rewrite Hget. simpl bind.
  destruct (for_each _ data []) as [out | e] eqn:E.
  - apply (for_each_map_ok _ _ (blk_body_any py_upper py_title aliases)) in E.
    eapply Forall2_impl; [ | exact E ]. intros p q Hpq. simpl in Hpq.
    destruct (U.find_key_by_value_ci py_upper aliases _) as [k |] eqn:Ek;
      simpl in Hpq; [ | discriminate ].
    injection Hpq as <-. simpl. split; [ reflexivity | ]. exists k. auto.
  - apply (for_each_map_raise _ _ (blk_body_any py_upper py_title aliases)) in E.
    destruct E as (p & Hin & Hp).
    destruct (U.find_key_by_value_ci py_upper aliases _) as [k |] eqn:Ek;
      simpl in Hp; [ discriminate | ].
    injection Hp as <-. split; [ reflexivity | ]. exists p. auto.
Qed.

Lemma data_value_as_abbr_blk_strict_witness :
  match U.data_value_as_abbr_blk upper title sample_blk_aliases
          [(mkRange 0x80 0xFF, "Latin-1 Supplement"%string)] with
  | Ok out =>
      Forall2
        (fun p q =>
           fst q = fst p
           /\ exists k,
                U.find_key_by_value_ci upper
                  [ ("ASCII", "Basic_Latin");
                    ("Latin_1_Sup", "Latin_1_Supplement") ]%string
                  (replace_char "-" "_" (replace_char " " "_" (snd p)))
                = Some k
                /\ snd q = join (map title (split_char "_" k)))
        [(mkRange 0x80 0xFF, "Latin-1 Supplement"%string)] out
  | Raise e =>
      e = AttributeError
      /\ exists p,
           In p [(mkRange 0x80 0xFF, "Latin-1 Supplement"%string)]
           /\ U.find_key_by_value_ci upper
                [ ("ASCII", "Basic_Latin");
                  ("Latin_1_Sup", "Latin_1_Supplement") ]%string
                (replace_char "-" "_" (replace_char " " "_" (snd p)))
              = None
  end.
Proof.
  apply (data_value_as_abbr_blk_strict upper title sample_blk_aliases).
  reflexivity.
Defined.

(** ** Grouped emission: the aliases *)

(** X18: when the loop over the emoji properties returns, every property
    name of the group is a value of [PropertyAliases.json]: a group with a
    property that has no alias never gets its routines. *)
Theorem emoji_loop_needs_aliases :
  forall (T : Type) (ops : TwoStageTableOps T)
         (property_aliases : dict string string)
         (emoji_data_dict : dict string (list (CodePointRange * string)))
         (rs : list routine),
    emoji_routines property_aliases emoji_data_dict = Ok rs ->
    Forall (fun k => find_key_by_value property_aliases k <> None)
           (keys emoji_data_dict).
Proof.
  intros T ops pa d rs E. unfold emoji_routines in E.
  apply (for_each_map_ok _ _ (emoji_body pa d)) in E.
  apply Forall_forall. intros k Hk.
  destruct (In_enumerate_from _ _ 0 k Hk) as (j & Hj).
  destruct (Forall2_pick_l _ _ _ _ _ _ E Hj) as (r & _ & Hr).
  exact (emoji_pass_Ok pa d (j, k) r Hr).
Qed.

Lemma emoji_loop_needs_aliases_witness :
  Forall (fun k => find_key_by_value sample_property_aliases k <> None)
         (keys sample_emoji_data).
Proof.
  eapply (emoji_loop_needs_aliases Z tie_ops sample_property_aliases
            sample_emoji_data).
  reflexivity.
Defined.

(** ** The lines of the emitted text *)

Lemma hex_char_free :
  forall (c : ascii) (d : Z),
    hex_digit c = None -> 0 <= d < 16 -> Ascii.eqb (hex_char d) c = false.
Proof.
  intros c d Hc Hd. destruct (Ascii.eqb_spec (hex_char d) c) as [E | _];
    [ | reflexivity ].
  rewrite <- E, hex_digit_char in Hc by exact Hd. discriminate.
Qed.

Lemma hex_upper_fuel_free :
  forall (c : ascii) (fuel : nat) (n : Z) (acc : string),
    hex_digit c = None -> char_free c acc = true ->
    char_free c (hex_upper_fuel fuel n acc) = true.
Proof.
  intros c fuel. induction fuel as [| fuel IH]; intros n acc Hc Hacc; simpl.
  - exact Hacc.
  - assert (Hacc' : char_free c (String (hex_char (n mod 16)) acc) = true).
    { simpl. rewrite Hacc, andb_true_r.
      rewrite hex_char_free; [ reflexivity | exact Hc | ].
      apply Z.mod_pos_bound. lia. }
    destruct (n / 16 =? 0); [ exact Hacc' | now apply IH ].
Qed.

(** The text ['{:04X}'] makes holds hexadecimal digits only. *)
Lemma hex04_free :
  forall (c : ascii) (n : Z), hex_digit c = None -> char_free c (hex04 n) = true.
Proof.
  intros c n Hc. unfold hex04, hex_upper. rewrite char_free_app.
  rewrite hex_upper_fuel_free by (exact Hc || reflexivity).
  rewrite andb_true_r.
  induction (4 - String.length _)%nat as [| k IH]; cbn [zeros char_free];
    [ reflexivity | ].
  rewrite IH, andb_true_r.
  destruct (Ascii.eqb_spec "0" c) as [<- | _]; [ discriminate Hc | reflexivity ].
Qed.

Lemma append_inv_head :
  forall a x y : string, (a ++ x)%string = (a ++ y)%string -> x = y.
Proof.
  induction a as [| c a IH]; simpl; intros x y E; [ exact E | ].
  injection E as E. now apply IH.
Qed.

Lemma append_length_inj :
  forall a b x y : string,
    String.length a = String.length b ->
    (a ++ x)%string = (b ++ y)%string -> a = b /\ x = y.
Proof.
  induction a as [| c a IH]; intros [| c' b] x y Hl E; simpl in *;
    try discriminate.
  - auto.
  - injection E as -> E. injection Hl as Hl.
    destruct (IH b x y Hl E) as [-> ->]. auto.
Qed.

Lemma append_inv_tail :
  forall a b t : string, (a ++ t)%string = (b ++ t)%string -> a = b.
Proof.
  intros a b t E.
  assert (Hl : String.length a = String.length b).
  { pose proof (f_equal String.length E) as L. rewrite !length_append in L. lia. }
  exact (proj1 (append_length_inj a b t t Hl E)).
Qed.

(** Two texts cut at the first occurrence of a character agree piece by
    piece. *)
Lemma split_first :
  forall (c : ascii) (a b x y : string),
    char_free c a = true -> char_free c b = true ->
    (a ++ String c x)%string = (b ++ String c y)%string -> a = b /\ x = y.
Proof.
  intros c. induction a as [| c1 a IH]; intros [| c2 b] x y Ha Hb E;
    simpl in *.
  - injection E as ->. auto.
  - injection E as <- _. rewrite Ascii.eqb_refl in Hb. discriminate.
  - injection E as -> _. rewrite Ascii.eqb_refl in Ha. discriminate.
  - injection E as -> E.
    apply andb_true_iff in Ha. apply andb_true_iff in Hb.
    destruct (IH b x y (proj2 Ha) (proj2 Hb) E) as [-> ->]. auto.
Qed.

Lemma hex_digit_nonneg :
  forall (c : ascii) (d : Z), hex_digit c = Some d -> 0 <= d.
Proof.
  intros c d. unfold hex_digit.
  set (n := Z.of_nat (nat_of_ascii c)).
  destruct ((48 <=? n) && (n <=? 57)) eqn:E1.
  - intros [= <-]. apply andb_true_iff in E1. destruct E1 as [E1 _].
    apply Z.leb_le in E1. lia.
  - destruct ((65 <=? n) && (n <=? 70)) eqn:E2.
    + intros [= <-]. apply andb_true_iff in E2. destruct E2 as [E2 _].
      apply Z.leb_le in E2. lia.
    + destruct ((97 <=? n) && (n <=? 102)) eqn:E3; [ | discriminate ].
      intros [= <-]. apply andb_true_iff in E3. destruct E3 as [E3 _].
      apply Z.leb_le in E3. lia.
Qed.

Lemma hex_acc_nonneg :
  forall (s : string) (a b : Z), 0 <= a -> hex_acc s a = Some b -> 0 <= b.
Proof.
  induction s as [| c s IH]; intros a b Ha E; simpl in E.
  - injection E as <-. exact Ha.
  - destruct (hex_digit c) as [d |] eqn:Ed; [ | discriminate ].
    apply hex_digit_nonneg in Ed. apply (IH (16 * a + d) b); [ lia | exact E ].
Qed.

Lemma int16_nonneg : forall (s : string) (n : Z), int16 s = Ok n -> 0 <= n.
Proof.
  intros s n E. unfold int16 in E. destruct s as [| c s]; [ discriminate | ].
  destruct (hex_acc (String c s) 0) as [m |] eqn:Ea; [ | discriminate ].
  injection E as <-. apply (hex_acc_nonneg (String c s) 0 m); [ lia | exact Ea ].
Qed.

Lemma parse_start_nonneg :
  forall (k : string) (r : CodePointRange), parse k = Ok r -> 0 <= start r.
Proof.
  intros k r E. unfold parse in E.
  destruct (split_dotdot k) as [| a [| b [| c l]]]; try discriminate.
  - destruct (int16 a) as [n |] eqn:En; simpl in E; [ | discriminate ].
    injection E as <-. simpl. now apply (int16_nonneg a).
  - destruct (int16 a) as [n |] eqn:En; simpl in E; [ | discriminate ].
    destruct (int16 b) as [m |] eqn:Em; simpl in E; [ | discriminate ].
    injection E as <-. simpl. now apply (int16_nonneg a).
Qed.

Lemma hex04_inj : forall n m : Z, 0 <= n -> 0 <= m -> hex04 n = hex04 m -> n = m.
Proof.
  intros n m Hn Hm E. pose proof (int16_hex04 n Hn) as En.
  rewrite E, (int16_hex04 m Hm) in En. now injection En as <-.
Qed.

(** A row of [NA_MAP] (and of [DM_MAP]) tells its code point and its text. *)
Lemma row_text_inj :
  forall (cp cp' : Z) (t t' : string),
    0 <= cp -> 0 <= cp' ->
    na_row_text (cp, t) = na_row_text (cp', t') -> cp = cp' /\ t = t'.
Proof.
  intros cp cp' t t' Hcp Hcp' E. unfold na_row_text in E. cbn [fst snd] in E.
  apply append_inv_head in E.
  change (", " ++ dquote ++ t ++ dquote ++ ")," ++ nl)%string
    with (String "," (" " ++ dquote ++ t ++ dquote ++ ")," ++ nl)%string) in E.
  change (", " ++ dquote ++ t' ++ dquote ++ ")," ++ nl)%string
    with (String "," (" " ++ dquote ++ t' ++ dquote ++ ")," ++ nl)%string) in E.
  apply split_first in E; try (apply hex04_free; reflexivity).
  destruct E as [Eh Et]. split; [ now apply hex04_inj | ].
  change (" " ++ dquote ++ t ++ dquote ++ ")," ++ nl)%string
    with ((" " ++ dquote) ++ t ++ dquote ++ ")," ++ nl)%string in Et.
  change (" " ++ dquote ++ t' ++ dquote ++ ")," ++ nl)%string
    with ((" " ++ dquote) ++ t' ++ dquote ++ ")," ++ nl)%string in Et.
  apply append_inv_head in Et. now apply append_inv_tail in Et.
Qed.

Lemma str_as_escaped_free :
  forall s : list Z, char_free "034" (str_as_escaped s) = true.
Proof.
  intros s. unfold str_as_escaped. apply char_free_join. apply Forall_map.
  apply Forall_forall. intros ch _.
  rewrite !char_free_app, hex04_free by reflexivity. reflexivity.
Qed.

(** A row of [RDM_MAP] tells the key it maps to. *)
Lemma rdm_row_text_key :
  forall (s s' : list Z) (k k' : string),
    rdm_row_text (s, k) = rdm_row_text (s', k') -> k = k'.
Proof.
  intros s s' k k' E. unfold rdm_row_text in E. cbn [fst snd] in E.
  change ("    (" ++ dquote ++ str_as_escaped s ++ dquote ++ ", 0x" ++ k
          ++ ")," ++ nl)%string
    with (("    (" ++ dquote)
          ++ str_as_escaped s ++ String "034" (", 0x" ++ k ++ ")," ++ nl))%string
    in E.
  change ("    (" ++ dquote ++ str_as_escaped s' ++ dquote ++ ", 0x" ++ k'
          ++ ")," ++ nl)%string
    with (("    (" ++ dquote)
          ++ str_as_escaped s' ++ String "034" (", 0x" ++ k' ++ ")," ++ nl))%string
    in E.
  apply append_inv_head in E.
  apply split_first in E; try apply str_as_escaped_free.
  destruct E as [_ E]. apply append_inv_head in E.
  now apply append_inv_tail in E.
Qed.

(** C6: the text [na_table_rs] returns is the heading of [NA_MAP], one
    line [    (0xHHHH, "name"),] per row, and the closing bracket; a pair
    (code point, name) is a row, and its line is among the lines written,
    exactly when some entry of the input has that name and that code point
    and the code point is inside none of the [derived_na_ranges].  So no
    entry inside an exclusion range is emitted, and every entry outside all
    of them is. *)
Theorem na_table_rs_excludes_derived :
  forall (d : dict string string) (txt : string),
    na_table_rs d = Ok txt ->
    exists rows,
      na_rows d = Ok rows
      /\ txt = ("#[allow(dead_code)]" ++ nl
   ++ "pub(super) const NA_MAP: &[(u32, &'static str)] = &[" ++ nl
   ++ join (map (fun row =>
                   "    (0x" ++ hex04 (fst row) ++ ", " ++ dquote ++ snd row
                   ++ dquote ++ ")," ++ nl) rows)
   ++ "];" ++ nl)%string
      /\ (forall (cp : Z) (name : string),
            In (cp, name) rows <->
            exists k rng,
              In (k, name) d /\ parse k = Ok rng /\ start rng = cp
              /\ ~ excluded cp)
      /\ forall (cp : Z) (name : string),
           0 <= cp ->
           (In ("    (0x" ++ hex04 cp ++ ", " ++ dquote ++ name ++ dquote
                ++ ")," ++ nl)%string
               (map (fun row =>
                      "    (0x" ++ hex04 (fst row) ++ ", " ++ dquote ++ snd row
                      ++ dquote ++ ")," ++ nl)%string rows)
            <-> exists k rng,
                  In (k, name) d /\ parse k = Ok rng /\ start rng = cp
                  /\ ~ excluded cp).
Proof.
  intros d txt E. unfold na_table_rs in E.
  destruct (na_rows d) as [rows | e] eqn:Er; simpl in E; [ | discriminate ].
  injection E as <-. exists rows. split; [ reflexivity | ].
  split; [ reflexivity | ]. split; [ apply (na_rows_entries d rows Er) | ].
  intros cp name Hcp.
  rewrite <- (na_rows_entries d rows Er cp name).
  split.
  - intros Hin. apply in_map_iff in Hin.
    destruct Hin as ([cp' name'] & Et & Hrow).
    assert (Hcp' : 0 <= cp').
    { apply (na_rows_entries d rows Er) in Hrow.
      destruct Hrow as (k & rng & _ & Ep & <- & _).
      now apply (parse_start_nonneg k). }
    destruct (row_text_inj cp' cp name' name Hcp' Hcp Et) as [<- <-].
    exact Hrow.
  - intros Hrow. exact (in_map na_row_text rows _ Hrow).
Qed.

Lemma na_table_rs_excludes_derived_witness :
  exists txt,
    na_table_rs sample_names = Ok txt
    /\ exists rows,
      na_rows sample_names = Ok rows
      /\ txt = ("#[allow(dead_code)]" ++ nl
   ++ "pub(super) const NA_MAP: &[(u32, &'static str)] = &[" ++ nl
   ++ join (map (fun row =>
                   "    (0x" ++ hex04 (fst row) ++ ", " ++ dquote ++ snd row
                   ++ dquote ++ ")," ++ nl) rows)
   ++ "];" ++ nl)%string
      /\ (forall (cp : Z) (name : string),
            In (cp, name) rows <->
            exists k rng,
              In (k, name) sample_names /\ parse k = Ok rng /\ start rng = cp
              /\ ~ excluded cp)
      /\ forall (cp : Z) (name : string),
           0 <= cp ->
           (In ("    (0x" ++ hex04 cp ++ ", " ++ dquote ++ name ++ dquote
                ++ ")," ++ nl)%string
               (map (fun row =>
                      "    (0x" ++ hex04 (fst row) ++ ", " ++ dquote ++ snd row
                      ++ dquote ++ ")," ++ nl)%string rows)
            <-> exists k rng,
                  In (k, name) sample_names /\ parse k = Ok rng /\ start rng = cp
                  /\ ~ excluded cp).
Proof.
  eexists. split; [ reflexivity | ].
  apply (na_table_rs_excludes_derived sample_names). reflexivity.
Defined.

(** The text of [dm_map_rs] is made of the two tables of [dm_map_tables]. *)
Lemma dm_map_rs_text :
  forall (ud : dict string (dict string string)) (txt : string),
    dm_map_rs ud = Ok txt ->
    exists dm rdm,
      dm_map_tables ud = Ok (dm, rdm)
      /\ txt = ("pub(super) const DM_MAP: &[(u32, &str)] = &[" ++ nl
                ++ join (map dm_row_text dm)
                ++ "];" ++ nl ++ nl
                ++ "pub(super) const RDM_MAP: &[(&str, u32)] = &[" ++ nl
                ++ join (map rdm_row_text rdm)
                ++ "];" ++ nl)%string.
Proof.
  intros ud txt E. unfold dm_map_rs in E.
  destruct (dm_map_tables ud) as [[dm rdm] | e]; simpl in E; [ | discriminate ].
  injection E as <-. exists dm, rdm. auto.
Qed.

(** C10: the text of [dm_map_rs] is the heading of [DM_MAP], one line
    [    (0xHHHH, "..."),] per row, the heading of [RDM_MAP] and one line
    [    ("...", 0xKEY),] per entry.  An entry of the input whose [dm] field
    begins with ["<"] has a row in [DM_MAP], made from the field with the
    tag removed, while [RDM_MAP] has no entry, and the text no line, that
    leads back to its key; the two tables are therefore not inverse to each
    other on that code point. *)
Theorem dm_map_not_roundtrip :
  forall (ud : dict string (dict string string)) (txt : string)
         (k : string) (props : dict string string) (dm_raw : string),
    NoDup (keys ud) ->
    dm_map_rs ud = Ok txt ->
    In (k, props) ud ->
    getitem props "dm"%string = Ok dm_raw ->
    startswith_char dm_raw "<" = true ->
    exists dm rdm,
      dm_map_tables ud = Ok (dm, rdm)
      /\ txt = ("pub(super) const DM_MAP: &[(u32, &str)] = &[" ++ nl
   ++ join (map (fun row =>
                   "    (0x" ++ hex04 (fst row) ++ ", " ++ dquote ++ snd row
                   ++ dquote ++ ")," ++ nl) dm)
   ++ "];" ++ nl ++ nl
   ++ "pub(super) const RDM_MAP: &[(&str, u32)] = &[" ++ nl
   ++ join (map (fun pair =>
                   "    (" ++ dquote ++ str_as_escaped (fst pair) ++ dquote
                   ++ ", 0x" ++ snd pair ++ ")," ++ nl) rdm)
   ++ "];" ++ nl)%string
      /\ (exists cp,
            parse k = Ok cp
            /\ In (start cp, dm_escape (re_sub_tag dm_raw)) dm)
      /\ (forall s : list Z, ~ In (s, k) rdm)
      /\ forall s : list Z,
           ~ In ("    (" ++ dquote ++ str_as_escaped s ++ dquote ++ ", 0x" ++ k
                 ++ ")," ++ nl)%string
                (map (fun pair =>
                      "    (" ++ dquote ++ str_as_escaped (fst pair) ++ dquote
                      ++ ", 0x" ++ snd pair ++ ")," ++ nl)%string rdm).
Proof.
  intros ud txt k props dm_raw Hnd E Hin Hget Htag.
  destruct (dm_map_rs_text ud txt E) as (dm & rdm & Et & ->).
  destruct (dm_tables_tagged ud dm rdm k props dm_raw Hnd Et Hin Hget Htag)
    as [Hrow Hnone].
  exists dm, rdm. split; [ exact Et | ]. split; [ reflexivity | ].
  split; [ exact Hrow | ]. split; [ exact Hnone | ].
  intros s Hline.
  apply (in_map_iff rdm_row_text rdm (rdm_row_text (s, k))) in Hline.
  destruct Hline as ([s' k'] & Eline & Hentry).
  apply rdm_row_text_key in Eline. subst k'.
  exact (Hnone s' Hentry).
Qed.

Lemma dm_map_not_roundtrip_witness :
  exists txt,
    dm_map_rs sample_unicode_data = Ok txt
    /\ exists dm rdm,
      dm_map_tables sample_unicode_data = Ok (dm, rdm)
      /\ txt = ("pub(super) const DM_MAP: &[(u32, &str)] = &[" ++ nl
   ++ join (map (fun row =>
                   "    (0x" ++ hex04 (fst row) ++ ", " ++ dquote ++ snd row
                   ++ dquote ++ ")," ++ nl) dm)
   ++ "];" ++ nl ++ nl
   ++ "pub(super) const RDM_MAP: &[(&str, u32)] = &[" ++ nl
   ++ join (map (fun pair =>
                   "    (" ++ dquote ++ str_as_escaped (fst pair) ++ dquote
                   ++ ", 0x" ++ snd pair ++ ")," ++ nl) rdm)
   ++ "];" ++ nl)%string
      /\ (exists cp,
            parse "00A8"%string = Ok cp
            /\ In (start cp, dm_escape (re_sub_tag "<compat> 0020 0308")) dm)
      /\ (forall s : list Z, ~ In (s, "00A8"%string) rdm)
      /\ forall s : list Z,
           ~ In ("    (" ++ dquote ++ str_as_escaped s ++ dquote ++ ", 0x" ++ "00A8"%string
                 ++ ")," ++ nl)%string
                (map (fun pair =>
                      "    (" ++ dquote ++ str_as_escaped (fst pair) ++ dquote
                      ++ ", 0x" ++ snd pair ++ ")," ++ nl)%string rdm).
Proof.
  eexists. split; [ reflexivity | ].
  apply (dm_map_not_roundtrip sample_unicode_data _ "00A8"
           [("na", "DIAERESIS"); ("dm", "<compat> 0020 0308")]%string).
  - repeat constructor; simpl; intuition discriminate.
  - reflexivity.
  - simpl. tauto.
  - reflexivity.
  - reflexivity.
Defined.

(** X14: the text of [dm_map_rs] is written from the two tables, one line
    per row; an entry whose [dm] field is not empty and not tagged has a
    row in both: [DM_MAP] maps its code point to the escaped fields, and
    [RDM_MAP] maps the decoded string back to its key. *)
Theorem dm_map_canonical_both_ways :
  forall (ud : dict string (dict string string)) (txt : string)
         (k : string) (props : dict string string) (dm_raw : string),
    dm_map_rs ud = Ok txt ->
    In (k, props) ud ->
    getitem props "dm"%string = Ok dm_raw ->
    dm_raw <> EmptyString ->
    startswith_char dm_raw "<" = false ->
    exists dm rdm cp s,
      dm_map_tables ud = Ok (dm, rdm)
      /\ txt = ("pub(super) const DM_MAP: &[(u32, &str)] = &[" ++ nl
   ++ join (map (fun row =>
                   "    (0x" ++ hex04 (fst row) ++ ", " ++ dquote ++ snd row
                   ++ dquote ++ ")," ++ nl) dm)
   ++ "];" ++ nl ++ nl
   ++ "pub(super) const RDM_MAP: &[(&str, u32)] = &[" ++ nl
   ++ join (map (fun pair =>
                   "    (" ++ dquote ++ str_as_escaped (fst pair) ++ dquote
                   ++ ", 0x" ++ snd pair ++ ")," ++ nl) rdm)
   ++ "];" ++ nl)%string
      /\ parse k = Ok cp
      /\ dm_decode dm_raw = Ok s
      /\ In (start cp, dm_escape dm_raw) dm
      /\ In (s, k) rdm.
Proof.
  intros ud txt k props dm_raw E Hin Hget Hne Htag.
  destruct (dm_map_rs_text ud txt E) as (dm & rdm & Et & ->).
  destruct (dm_tables_canonical ud dm rdm k props dm_raw Et Hin Hget Hne Htag)
    as (cp & s & Ep & Ed & Hdm & Hrdm).
  exists dm, rdm, cp, s. repeat split; assumption.
Qed.

Lemma dm_map_canonical_both_ways_witness :
  exists txt,
    dm_map_rs sample_unicode_data = Ok txt
    /\ exists dm rdm cp s,
      dm_map_tables sample_unicode_data = Ok (dm, rdm)
      /\ txt = ("pub(super) const DM_MAP: &[(u32, &str)] = &[" ++ nl
   ++ join (map (fun row =>
                   "    (0x" ++ hex04 (fst row) ++ ", " ++ dquote ++ snd row
                   ++ dquote ++ ")," ++ nl) dm)
   ++ "];" ++ nl ++ nl
   ++ "pub(super) const RDM_MAP: &[(&str, u32)] = &[" ++ nl
   ++ join (map (fun pair =>
                   "    (" ++ dquote ++ str_as_escaped (fst pair) ++ dquote
                   ++ ", 0x" ++ snd pair ++ ")," ++ nl) rdm)
   ++ "];" ++ nl)%string
      /\ parse "00C0"%string = Ok cp
      /\ dm_decode "0041 0300" = Ok s
      /\ In (start cp, dm_escape "0041 0300") dm
      /\ In (s, "00C0"%string) rdm.
Proof.
  eexists. split; [ reflexivity | ].
  apply (dm_map_canonical_both_ways sample_unicode_data _ "00C0"
           [("na", "LATIN CAPITAL LETTER A WITH GRAVE"); ("dm", "0041 0300")]%string).
  - reflexivity.
  - simpl. tauto.
  - reflexivity.
  - discriminate.
  - reflexivity.
Defined.

(** X17: the text of [dm_map_rs] is written from the two tables, one line
    per row; for an entry whose [dm] field is a tag between ["<"] and
    ["> "] followed by the code fields (the tag not empty and on one line,
    the fields free of ["<"] and [">"]), the row of [DM_MAP] is made of the
    code fields alone: the tag and its blank are gone. *)
Theorem dm_map_tag_stripped :
  forall (ud : dict string (dict string string)) (txt : string)
         (k : string) (props : dict string string) (tag codes : string),
    dm_map_rs ud = Ok txt ->
    In (k, props) ud ->
    getitem props "dm"%string
    = Ok (String "<" (tag ++ String ">" (String " " codes))) ->
    tag <> EmptyString ->
    char_free newline tag = true ->
    char_free "<" codes = true ->
    char_free ">" codes = true ->
    exists dm rdm cp,
      dm_map_tables ud = Ok (dm, rdm)
      /\ txt = ("pub(super) const DM_MAP: &[(u32, &str)] = &[" ++ nl
   ++ join (map (fun row =>
                   "    (0x" ++ hex04 (fst row) ++ ", " ++ dquote ++ snd row
                   ++ dquote ++ ")," ++ nl) dm)
   ++ "];" ++ nl ++ nl
   ++ "pub(super) const RDM_MAP: &[(&str, u32)] = &[" ++ nl
   ++ join (map (fun pair =>
                   "    (" ++ dquote ++ str_as_escaped (fst pair) ++ dquote
                   ++ ", 0x" ++ snd pair ++ ")," ++ nl) rdm)
   ++ "];" ++ nl)%string
      /\ parse k = Ok cp
      /\ In (start cp, dm_escape codes) dm.
Proof.
  intros ud txt k props tag codes E Hin Hget Hne Hnl Hlt Hgt.
  destruct (dm_map_rs_text ud txt E) as (dm & rdm & Et & ->).
  destruct (dm_tables_tag_stripped ud dm rdm k props tag codes
              Et Hin Hget Hne Hnl Hlt Hgt) as (cp & Ep & Hrow).
  exists dm, rdm, cp. repeat split; assumption.
Qed.

Lemma dm_map_tag_stripped_witness :
  exists txt,
    dm_map_rs sample_unicode_data = Ok txt
    /\ exists dm rdm cp,
      dm_map_tables sample_unicode_data = Ok (dm, rdm)
      /\ txt = ("pub(super) const DM_MAP: &[(u32, &str)] = &[" ++ nl
   ++ join (map (fun row =>
                   "    (0x" ++ hex04 (fst row) ++ ", " ++ dquote ++ snd row
                   ++ dquote ++ ")," ++ nl) dm)
   ++ "];" ++ nl ++ nl
   ++ "pub(super) const RDM_MAP: &[(&str, u32)] = &[" ++ nl
   ++ join (map (fun pair =>
                   "    (" ++ dquote ++ str_as_escaped (fst pair) ++ dquote
                   ++ ", 0x" ++ snd pair ++ ")," ++ nl) rdm)
   ++ "];" ++ nl)%string
      /\ parse "00A8"%string = Ok cp
      /\ In (start cp, dm_escape "0020 0308") dm.
Proof.
  eexists. split; [ reflexivity | ].
  apply (dm_map_tag_stripped sample_unicode_data _ "00A8"
           [("na", "DIAERESIS"); ("dm", "<compat> 0020 0308")]%string
           "compat" "0020 0308").
  - reflexivity.
  - simpl. tauto.
  - reflexivity.
  - discriminate.
  - reflexivity.
  - reflexivity.
  - reflexivity.
Defined.
